(** * express-fileupload: the multipart upload processor

    A shallow embedding of the two revisions of [lib/processMultipart.js]
    found in the repository:

    - the revision with a per-part upload timer ([Module Timed]);
    - the revision with the aggregate size cap [limits.totalSize] and the
      flush barrier on [req[waitFlushProperty]] ([Module Capped]).

    The processor is event driven: it registers listeners on the request,
    on the Busboy decoder and on every file stream, and then returns.  Each
    listener is embedded as a function from the session state to a new
    state and the list of observable actions it performs, in program
    order.  The environment (transport, decoder, timers, promise
    settlement) is an arbitrary list of events. *)

From Stdlib Require Import ZArith List Bool String Lia.
From stdpp Require Import gmap strings list.
Import ListNotations.

Local Open Scope string_scope.
Local Open Scope Z_scope.
Local Open Scope list_scope.

(** ** Values shared by both revisions *)

(** A chunk handed to a file stream's ['data'] listener (a Buffer). *)
Definition chunk := list Byte.byte.

(** [data.length] *)
Definition chunk_length (data : chunk) : Z := Z.of_nat (length data).

(** The bytes of a sequence of chunks. *)
Definition chunks_length (cs : list chunk) : Z :=
  fold_right (fun c n => chunk_length c + n) 0 cs.

(** Errors passed around by the decoder, the file streams and promises. *)
Definition error := string.

(** The value stored under an option that is expected to hold a callback:
    either a function (identified by a name) or anything else
    ([undefined] when the option is not configured). *)
Inductive callback :=
| NotAFunction
| Function (h : nat).

(** Modelled from the spec: [isFunc] of [lib/utilities.js] (its source is
    not at hand), the test for a configured handler: true exactly for
    functions. *)
Definition isFunc (v : callback) : bool :=
  match v with
  | Function _ => true
  | NotAFunction => false
  end.

(** The options the processor reads.  Numeric options are [None] when the
    property is [undefined]; JavaScript numbers are taken as integers.
    [limits_totalSize] is [options.limits.totalSize] of an [options.limits]
    that is an object; a call whose options have no [limits] object is
    [Capped.exports false]. *)
Record options := {
  useTempFiles : bool;
  limits_totalSize : option Z;
  limitHandler : callback;
  numFilesLimitHandler : callback;
  abortOnLimit : bool;
  responseOnLimit : option string;
  parseNested : bool;
  uploadTimeout : option Z
}.

(** [a > b] on JavaScript numbers, [None] standing for a value that
    converts to [NaN] (an absent header, an [undefined] limit): every
    comparison with [NaN] is false. *)
Definition js_gt (a b : option Z) : bool :=
  match a, b with
  | Some x, Some y => x >? y
  | _, _ => false
  end.

(** [code || 400] *)
Definition code_or_400 (code : option Z) : Z :=
  match code with
  | Some c => if c =? 0 then 400 else c
  | None => 400
  end.

(** [reason || 'Bad Request'] *)
Definition reason_or_default (reason : option string) : string :=
  match reason with
  | Some r => if String.eqb r "" then "Bad Request" else r
  | None => "Bad Request"
  end.

(** The observable actions of the processor, in the order it performs
    them. *)
Inductive effect :=
| ENewBusboy                          (* new Busboy(busboyOptions) *)
| EPipe                               (* req.pipe(busboy) *)
| EUnpipe                             (* req.unpipe(busboy) *)
| EWriteHead (code : Z)               (* res.writeHead(code, {Connection: 'close'}) *)
| EResEnd (reason : string)           (* res.end(reason) *)
| ENewSink (k : nat)                  (* tempFileHandler(...) or memHandler(...) for part k *)
| ESinkWrite (k : nat) (data : chunk) (* dataHandler(data) of part k *)
| ECleanup (k : nat)                  (* cleanup() of part k *)
| ESetTimeout (t : nat)               (* setTimeout(..., timeout), returning timer t *)
| EClearTimeout (t : nat)             (* clearTimeout(t) *)
| ELimitHandler (h : nat)             (* options.limitHandler(req, res, next) *)
| ENumFilesLimitHandler (h : nat)     (* options.numFilesLimitHandler(req, res, next) *)
| ENext (err : option error)          (* next(err) *)
| EThrowTypeError.                    (* the call of a value that is not a function *)

(** [options.limitHandler(req, res, next)]: runs the handler when the
    option holds a function; the call of anything else throws. *)
Definition call_limitHandler (opts : options) : effect :=
  match limitHandler opts with
  | Function h => ELimitHandler h
  | NotAFunction => EThrowTypeError
  end.

(** [closeConnection(code, reason)] *)
Definition closeConnection (code : option Z) (reason : option string) : list effect :=
  [EUnpipe; EWriteHead (code_or_400 code); EResEnd (reason_or_default reason)].

Definition is_next (e : effect) : bool :=
  match e with
  | ENext _ => true
  | _ => false
  end.

(** How often [next] is called in a list of actions. *)
Definition count_next (l : list effect) : nat :=
  length (List.filter is_next l).

Definition is_cleanup_of (k : nat) (e : effect) : bool :=
  match e with
  | ECleanup j => Nat.eqb j k
  | _ => false
  end.

(** How often the cleanup of part [k] is called in a list of actions. *)
Definition count_cleanup (k : nat) (l : list effect) : nat :=
  length (List.filter (is_cleanup_of k) l).

(** ** Sinks, artifacts and field mappings *)

(** Modelled from the spec: the Sink of [lib/memHandler.js] and
    [lib/tempFileHandler.js], whose sources are not at hand.
    It accepts byte chunks, reports the running size, finalizes to a
    payload (the full buffer for the memory variant, nothing for the
    temporary-file variant) and releases its resources idempotently. *)
Record sink := {
  received : list chunk;
  released : bool
}.

Definition new_sink : sink := {| received := []; released := false |}.

Definition sink_write (data : chunk) (s : sink) : sink :=
  {| received := received s ++ [data]; released := released s |}.

Definition sink_release (s : sink) : sink :=
  {| received := received s; released := true |}.

Definition getFileSize (s : sink) : Z := chunks_length (received s).

Definition complete (temp : bool) (s : sink) : chunk :=
  if temp then [] else concat (received s).

(** Modelled from the spec: the FileArtifact built by [lib/fileFactory.js]
    (its source is not at hand) from the record the ['end'] listener
    passes to it. *)
Record artifact := {
  a_buffer : chunk;
  a_name : string;
  a_tempFilePath : string;
  a_size : Z;
  a_hash : string;
  a_encoding : string;
  a_truncated : bool;
  a_mimetype : string
}.

(** A value of a mapping: a scalar, or an ordered collection once the key
    repeats. *)
Inductive entry (A : Type) :=
| Single (a : A)
| Many (l : list A).
Arguments Single {A} a.
Arguments Many {A} l.

(** Modelled from the spec: [buildFields] of [lib/utilities.js] (its
    source is not at hand).  A first occurrence of a key stores the value
    directly, a later one promotes it to an ordered collection that keeps
    arrival order.  The mapping is [None] while it is [null]. *)
Definition buildFields {A} (instance : option (gmap string (entry A)))
    (field : string) (value : A) : option (gmap string (entry A)) :=
  let m := default ∅ instance in
  Some match m !! field with
       | None => <[field := Single value]> m
       | Some (Single a) => <[field := Many [a; value]]> m
       | Some (Many l) => <[field := Many (l ++ [value])]> m
       end.

(** A file part: what the ['file'] listener binds in its closure. *)
Record part := {
  p_field : string;
  p_filename : string;
  p_encoding : string;
  p_mime : string;
  p_sink : sink;
  p_timer : option nat          (* uploadTimer: null or a timer handle *)
}.

Definition with_sink (f : sink -> sink) (p : part) : part :=
  {| p_field := p_field p; p_filename := p_filename p;
     p_encoding := p_encoding p; p_mime := p_mime p;
     p_sink := f (p_sink p); p_timer := p_timer p |}.

Definition with_timer (t : option nat) (p : part) : part :=
  {| p_field := p_field p; p_filename := p_filename p;
     p_encoding := p_encoding p; p_mime := p_mime p;
     p_sink := p_sink p; p_timer := t |}.

(** Running the cleanup closures of the parts listed in [ks]. *)
Definition release_parts (ks : list nat) (ps : list part) : list part :=
  fold_left (fun acc k => alter (with_sink sink_release) k acc) ks ps.

(** The bytes delivered to the sinks' data handlers, over all parts. *)
Definition delivered (ps : list part) : Z :=
  fold_right (fun p n => getFileSize (p_sink p) + n) 0 ps.

(** The collaborators the processor calls without any claim depending on
    what they compute; they are parameters of the embedding:
    [parseFileName] of [lib/utilities.js], [processNested] of
    [lib/processNested.js], and the sink's [getHash] and [getFilePath]
    (both take [useTempFiles]; the path also takes field and file name). *)
Record collaborators := {
  parseFileName : options -> string -> string;
  processNested :
    forall A : Type, option (gmap string (entry A)) -> option (gmap string (entry A));
  getHash : bool -> sink -> string;
  getFilePath : bool -> string -> string -> string
}.

(** The state of a promise. *)
Inductive pstate :=
| Pending
| Fulfilled
| Rejected (err : error).

(** What [Promise.all] over the handles [hs] has come to. *)
Inductive all_state :=
| AllPending
| AllFulfilled
| AllRejected (err : error).

Definition is_fulfilled (ps : list pstate) (h : nat) : bool :=
  match ps !! h with
  | Some Fulfilled => true
  | _ => false
  end.

Fixpoint first_rejection (ps : list pstate) (hs : list nat) : option error :=
  match hs with
  | [] => None
  | h :: hs' =>
      match ps !! h with
      | Some (Rejected e) => Some e
      | _ => first_rejection ps hs'
      end
  end.

(** [Promise.all(hs)]: rejected as soon as one handle is rejected,
    fulfilled once every handle is fulfilled. *)
Definition promise_all (ps : list pstate) (hs : list nat) : all_state :=
  match first_rejection ps hs with
  | Some e => AllRejected e
  | None => if forallb (is_fulfilled ps) hs then AllFulfilled else AllPending
  end.

(** A pending promise settles once; a settled one never changes. *)
Definition settle (h : nat) (r : option error) (ps : list pstate) : list pstate :=
  match ps !! h with
  | Some Pending =>
      <[h := match r with None => Fulfilled | Some e => Rejected e end]> ps
  | _ => ps
  end.

(** ** The revision with the aggregate cap and the flush barrier *)

Module Capped.

(** The variables of one call of the processor: [totalSize], [cleanups],
    the closures of the ['file'] listener, [req.body], [req.files],
    [req[waitFlushProperty]], the promises handed out by
    [getWritePromise()] and the [Promise.all] continuations of the
    ['finish'] listener that have not run yet (each with the handles it
    took from [req[waitFlushProperty]] when it was created). *)
Record session := {
  totalSize : Z;
  cleanups : list nat;
  parts : list part;
  body : option (gmap string (entry string));
  files : option (gmap string (entry artifact));
  waitFlush : option (list nat);
  promises : list pstate;
  barriers : list (list nat)
}.

Definition set_totalSize (n : Z) (st : session) : session :=
  {| totalSize := n; cleanups := cleanups st; parts := parts st;
     body := body st; files := files st; waitFlush := waitFlush st;
     promises := promises st; barriers := barriers st |}.

Definition set_parts (ps : list part) (st : session) : session :=
  {| totalSize := totalSize st; cleanups := cleanups st; parts := ps;
     body := body st; files := files st; waitFlush := waitFlush st;
     promises := promises st; barriers := barriers st |}.

Definition set_cleanups (cs : list nat) (st : session) : session :=
  {| totalSize := totalSize st; cleanups := cs; parts := parts st;
     body := body st; files := files st; waitFlush := waitFlush st;
     promises := promises st; barriers := barriers st |}.

Definition set_body (b : option (gmap string (entry string))) (st : session) : session :=
  {| totalSize := totalSize st; cleanups := cleanups st; parts := parts st;
     body := b; files := files st; waitFlush := waitFlush st;
     promises := promises st; barriers := barriers st |}.

Definition set_files (f : option (gmap string (entry artifact))) (st : session) : session :=
  {| totalSize := totalSize st; cleanups := cleanups st; parts := parts st;
     body := body st; files := f; waitFlush := waitFlush st;
     promises := promises st; barriers := barriers st |}.

Definition set_waitFlush (w : option (list nat)) (st : session) : session :=
  {| totalSize := totalSize st; cleanups := cleanups st; parts := parts st;
     body := body st; files := files st; waitFlush := w;
     promises := promises st; barriers := barriers st |}.

Definition set_promises (ps : list pstate) (st : session) : session :=
  {| totalSize := totalSize st; cleanups := cleanups st; parts := parts st;
     body := body st; files := files st; waitFlush := waitFlush st;
     promises := ps; barriers := barriers st |}.

Definition set_barriers (bs : list (list nat)) (st : session) : session :=
  {| totalSize := totalSize st; cleanups := cleanups st; parts := parts st;
     body := body st; files := files st; waitFlush := waitFlush st;
     promises := promises st; barriers := bs |}.

(** What the environment can deliver to the listeners. *)
Inductive event :=
| Aborted                                           (* req 'aborted' *)
| Field (field val : string)                        (* busboy 'field' *)
| File (field name encoding mime : string)          (* busboy 'file': a new part *)
| FileLimit (k : nat)                               (* 'limit' of part k *)
| FileData (k : nat) (data : chunk)                 (* 'data' of part k *)
| FileEnd (k : nat) (truncated : bool) (flush : pstate)
    (* 'end' of part k, with file.truncated and the state of the promise
       getWritePromise() returns *)
| FileError (k : nat) (err : error)                 (* 'error' of part k *)
| FilesLimit                                        (* busboy 'filesLimit' *)
| Finish                                            (* busboy 'finish' *)
| BusboyError (err : error)                         (* busboy 'error' *)
| Settle (h : nat) (r : option error).              (* promise h fulfils or rejects *)

(** The result of the call of the processor itself. *)
Inductive outcome :=
| Returned (effs : list effect)            (* returned before anything was set up *)
| Started (st : session) (effs : list effect).

Section Processor.

Variable ext : collaborators.
Variable opts : options.

Definition init : session :=
  {| totalSize := 0; cleanups := []; parts := []; body := None;
     files := None; waitFlush := None; promises := []; barriers := [] |}.

(** The body of [module.exports] up to its return.  [content_length] is
    [req.headers['content-length']] as a number. *)
Definition processMultipart (content_length : option Z) : outcome :=
  if js_gt content_length (limits_totalSize opts)
  then Returned [call_limitHandler opts]
  else Started init [ENewBusboy; EPipe].

(** [cleanAll()] *)
Definition cleanAll (st : session) : session * list effect :=
  (set_parts (release_parts (cleanups st) (parts st)) st,
   map ECleanup (cleanups st)).

Definition on_aborted (st : session) : session * list effect :=
  cleanAll st.

Definition on_field (field val : string) (st : session) : session * list effect :=
  (set_body (buildFields (body st) field val) st, []).

Definition on_file (field name encoding mime : string) (st : session)
  : session * list effect :=
  let filename := parseFileName ext opts name in
  let k := length (parts st) in
  let p := {| p_field := field; p_filename := filename; p_encoding := encoding;
              p_mime := mime; p_sink := new_sink; p_timer := None |} in
  (set_cleanups (cleanups st ++ [k]) (set_parts (parts st ++ [p]) st),
   [ENewSink k]).

Definition on_limit (k : nat) (st : session) : session * list effect :=
  if isFunc (limitHandler opts) then
    let '(st1, effs) := cleanAll st in
    (st1, EUnpipe :: effs ++ [call_limitHandler opts])
  else if abortOnLimit opts then
    let '(st1, effs) := cleanAll st in
    (st1, closeConnection (Some 413) (responseOnLimit opts) ++ effs)
  else (st, []).

Definition on_data (k : nat) (data : chunk) (st : session) : session * list effect :=
  let st1 := set_totalSize (totalSize st + chunk_length data) st in
  if js_gt (Some (totalSize st1)) (limits_totalSize opts) then
    let '(st2, effs) := cleanAll st1 in
    (st2, EUnpipe :: effs ++ [call_limitHandler opts])
  else
    (set_parts (alter (with_sink (sink_write data)) k (parts st1)) st1,
     [ESinkWrite k data]).

Definition on_end (k : nat) (p : part) (truncated : bool) (flush : pstate)
    (st : session) : session * list effect :=
  let temp := useTempFiles opts in
  let file :=
    {| a_buffer := complete temp (p_sink p);
       a_name := p_filename p;
       a_tempFilePath := getFilePath ext temp (p_field p) (p_filename p);
       a_size := getFileSize (p_sink p);
       a_hash := getHash ext temp (p_sink p);
       a_encoding := p_encoding p;
       a_truncated := truncated;
       a_mimetype := p_mime p |} in
  let st1 := set_files (buildFields (files st) (p_field p) file) st in
  let h := length (promises st1) in
  let w := match waitFlush st1 with Some hs => hs | None => [] end in
  (set_waitFlush (Some (w ++ [h])) (set_promises (promises st1 ++ [flush]) st1),
   []).

Definition on_error (k : nat) (err : error) (st : session) : session * list effect :=
  let '(st1, effs) := cleanAll st in
  (st1, effs ++ [ENext None]).

Definition on_filesLimit (st : session) : session * list effect :=
  match numFilesLimitHandler opts with
  | Function h => (st, [ENumFilesLimitHandler h])
  | NotAFunction => (st, [])
  end.

(** [handler(err)] of the ['finish'] listener. *)
Definition handler (err : option error) (st : session) : session * list effect :=
  let st1 :=
    if parseNested opts
    then set_files (processNested ext artifact (files st))
           (set_body (processNested ext string (body st)) st)
    else st in
  (st1, [ENext err]).

(** The [then] and [catch] callbacks behind [Promise.all].  [next] and
    [processNested] are taken to return normally, so the [catch] callback
    runs only when the [Promise.all] is rejected. *)
Definition on_all_fulfilled (st : session) : session * list effect :=
  handler None (set_waitFlush None st).

Definition on_all_rejected (err : error) (st : session) : session * list effect :=
  handler (Some err) (set_waitFlush None st).

(** Runs the continuations among [bs] whose [Promise.all] has settled and
    keeps the others. *)
Fixpoint run_barriers (bs : list (list nat)) (st : session) : session * list effect :=
  match bs with
  | [] => (st, [])
  | hs :: bs' =>
      let '(st1, effs1) :=
        match promise_all (promises st) hs with
        | AllPending => (set_barriers (barriers st ++ [hs]) st, [])
        | AllFulfilled => on_all_fulfilled st
        | AllRejected e => on_all_rejected e st
        end in
      let '(st2, effs2) := run_barriers bs' st1 in
      (st2, effs1 ++ effs2)
  end.

Definition on_finish (st : session) : session * list effect :=
  match waitFlush st with
  | Some hs => run_barriers [hs] st
  | None => handler None st
  end.

Definition on_settle (h : nat) (r : option error) (st : session) : session * list effect :=
  let st1 := set_promises (settle h r (promises st)) st in
  run_barriers (barriers st1) (set_barriers [] st1).

(** One event.  A file event reaches listeners only when its part
    exists.  A listener that throws leaves the state as it was at the
    throw; [EThrowTypeError] is then its last action. *)
Definition step (ev : event) (st : session) : session * list effect :=
  match ev with
  | Aborted => on_aborted st
  | Field field val => on_field field val st
  | File field name encoding mime => on_file field name encoding mime st
  | FileLimit k =>
      match parts st !! k with Some _ => on_limit k st | None => (st, []) end
  | FileData k data =>
      match parts st !! k with Some _ => on_data k data st | None => (st, []) end
  | FileEnd k truncated flush =>
      match parts st !! k with
      | Some p => on_end k p truncated flush st
      | None => (st, [])
      end
  | FileError k err =>
      match parts st !! k with Some _ => on_error k err st | None => (st, []) end
  | FilesLimit => on_filesLimit st
  | Finish => on_finish st
  | BusboyError err => (st, [ENext (Some err)])
  | Settle h r => on_settle h r st
  end.

(** A sequence of events, from a given state. *)
Fixpoint run (evs : list event) (st : session) : session * list effect :=
  match evs with
  | [] => (st, [])
  | ev :: evs' =>
      let '(st1, effs1) := step ev st in
      let '(st2, effs2) := run evs' st1 in
      (st2, effs1 ++ effs2)
  end.

(** A whole call: the processor, then the events.  No listener exists
    when the processor returned early. *)
Definition process (content_length : option Z) (evs : list event)
  : option session * list effect :=
  match processMultipart content_length with
  | Returned effs => (None, effs)
  | Started st effs =>
      let '(st1, effs1) := run evs st in (Some st1, effs ++ effs1)
  end.

(** The sinks created in a whole call. *)
Definition sinks_created (r : option session * list effect) : nat :=
  match r.1 with
  | Some st => length (parts st)
  | None => 0%nat
  end.

(** [module.exports] on the options as the caller passes them.
    [has_limits] tells whether [options.limits] is an object.  When it is
    not, reading [options.limits.totalSize] in the fast-reject test throws
    a TypeError, before a cleanup list, a listener or the decoder exists.
    When it is, [limits_totalSize opts] is its [totalSize]. *)
Definition exports (has_limits : bool) (content_length : option Z) : outcome :=
  if has_limits then processMultipart content_length
  else Returned [EThrowTypeError].

(** A whole call on the options as the caller passes them. *)
Definition call (has_limits : bool) (content_length : option Z)
    (evs : list event) : option session * list effect :=
  match exports has_limits content_length with
  | Returned effs => (None, effs)
  | Started st effs =>
      let '(st1, effs1) := run evs st in (Some st1, effs ++ effs1)
  end.

End Processor.

End Capped.

(** ** The revision with the per-part upload timer *)

Module Timed.

(** A timer created by [setTimeout]: pending until it fires or is
    cleared.  [t_part] is the part whose closure the callback runs in. *)
Inductive timer_state :=
| Armed
| Cleared
| Fired.

Record timer := {
  t_state : timer_state;
  t_part : nat
}.

Definition set_state (s : timer_state) (t : timer) : timer :=
  {| t_state := s; t_part := t_part t |}.

(** [clearTimeout]: only a pending timer changes. *)
Definition clear (t : timer) : timer :=
  match t_state t with
  | Armed => set_state Cleared t
  | _ => t
  end.

(** The variables of one call of the processor: [cleanups], the closures
    of the ['file'] listener (each with its [uploadTimer]), [req.body],
    [req.files], and the timers of the event loop. *)
Record session := {
  cleanups : list nat;
  parts : list part;
  body : option (gmap string (entry string));
  files : option (gmap string (entry artifact));
  timers : list timer
}.

Definition set_parts (ps : list part) (st : session) : session :=
  {| cleanups := cleanups st; parts := ps; body := body st;
     files := files st; timers := timers st |}.

Definition set_cleanups (cs : list nat) (st : session) : session :=
  {| cleanups := cs; parts := parts st; body := body st;
     files := files st; timers := timers st |}.

Definition set_body (b : option (gmap string (entry string))) (st : session) : session :=
  {| cleanups := cleanups st; parts := parts st; body := b;
     files := files st; timers := timers st |}.

Definition set_files (f : option (gmap string (entry artifact))) (st : session) : session :=
  {| cleanups := cleanups st; parts := parts st; body := body st;
     files := f; timers := timers st |}.

Definition set_timers (ts : list timer) (st : session) : session :=
  {| cleanups := cleanups st; parts := parts st; body := body st;
     files := files st; timers := ts |}.

Inductive event :=
| Aborted                                           (* req 'aborted' *)
| Field (field val : string)                        (* busboy 'field' *)
| File (field name encoding mime : string)          (* busboy 'file': a new part *)
| FileLimit (k : nat)                               (* 'limit' of part k *)
| FileData (k : nat) (data : chunk)                 (* 'data' of part k *)
| FileEnd (k : nat) (truncated : bool)              (* 'end' of part k, with file.truncated *)
| FileError (k : nat) (err : error)                 (* 'error' of part k *)
| FilesLimit                                        (* busboy 'filesLimit' *)
| Finish                                            (* busboy 'finish' *)
| BusboyError (err : error)                         (* busboy 'error' *)
| Timeout (t : nat).                                (* the delay of timer t has passed *)

Section Processor.

Variable ext : collaborators.
Variable opts : options.

Definition init : session :=
  {| cleanups := []; parts := []; body := None; files := None; timers := [] |}.

(** The body of [module.exports] up to its return. *)
Definition processMultipart : session * list effect :=
  (init, [ENewBusboy; EPipe]).

(** [cleanup()] of part [k] *)
Definition cleanup (k : nat) (st : session) : session * list effect :=
  (set_parts (release_parts [k] (parts st)) st, [ECleanup k]).

(** [clearUploadTimer()] in the closure of part [k]: [clearTimeout] of
    [null] does nothing. *)
Definition clearUploadTimer (k : nat) (st : session) : session * list effect :=
  match parts st !! k with
  | Some p =>
      match p_timer p with
      | Some t => (set_timers (alter clear t (timers st)) st, [EClearTimeout t])
      | None => (st, [])
      end
  | None => (st, [])
  end.

(** [setUploadTimer()] in the closure of part [k] *)
Definition setUploadTimer (k : nat) (st : session) : session * list effect :=
  let '(st1, effs) := clearUploadTimer k st in
  let t := length (timers st1) in
  (set_parts (alter (with_timer (Some t)) k (parts st1))
     (set_timers (timers st1 ++ [{| t_state := Armed; t_part := k |}]) st1),
   effs ++ [ESetTimeout t]).

Definition on_aborted (st : session) : session * list effect :=
  (set_parts (release_parts (cleanups st) (parts st)) st,
   map ECleanup (cleanups st)).

Definition on_field (field val : string) (st : session) : session * list effect :=
  (set_body (buildFields (body st) field val) st, []).

Definition on_file (field name encoding mime : string) (st : session)
  : session * list effect :=
  let filename := parseFileName ext opts name in
  let k := length (parts st) in
  let p := {| p_field := field; p_filename := filename; p_encoding := encoding;
              p_mime := mime; p_sink := new_sink; p_timer := None |} in
  let st1 := set_cleanups (cleanups st ++ [k]) (set_parts (parts st ++ [p]) st) in
  let '(st2, effs) := setUploadTimer k st1 in
  (st2, ENewSink k :: effs).

Definition on_limit (k : nat) (st : session) : session * list effect :=
  if isFunc (limitHandler opts) then (st, [call_limitHandler opts])
  else if abortOnLimit opts then
    let '(st1, effs) := cleanup k st in
    (st1, closeConnection (Some 413) (responseOnLimit opts) ++ effs)
  else (st, []).

Definition on_data (k : nat) (data : chunk) (st : session) : session * list effect :=
  (set_parts (alter (with_sink (sink_write data)) k (parts st)) st,
   [ESinkWrite k data]).

Definition on_end (k : nat) (p : part) (truncated : bool) (st : session)
  : session * list effect :=
  let temp := useTempFiles opts in
  let file :=
    {| a_buffer := complete temp (p_sink p);
       a_name := p_filename p;
       a_tempFilePath := getFilePath ext temp (p_field p) (p_filename p);
       a_size := getFileSize (p_sink p);
       a_hash := getHash ext temp (p_sink p);
       a_encoding := p_encoding p;
       a_truncated := truncated;
       a_mimetype := p_mime p |} in
  (set_files (buildFields (files st) (p_field p) file) st, []).

Definition on_error (k : nat) (err : error) (st : session) : session * list effect :=
  let '(st1, effs) := cleanup k st in
  (st1, effs ++ [ENext None]).

Definition on_filesLimit (st : session) : session * list effect :=
  match numFilesLimitHandler opts with
  | Function h => (st, [ENumFilesLimitHandler h])
  | NotAFunction => (st, [])
  end.

Definition on_finish (st : session) : session * list effect :=
  let st1 :=
    if parseNested opts
    then set_files (processNested ext artifact (files st))
           (set_body (processNested ext string (body st)) st)
    else st in
  (st1, [ENext None]).

(** The callback given to [setTimeout], run when a pending timer's delay
    has passed. *)
Definition on_timeout (t : nat) (st : session) : session * list effect :=
  match timers st !! t with
  | Some tm =>
      match t_state tm with
      | Armed => cleanup (t_part tm) (set_timers (alter (set_state Fired) t (timers st)) st)
      | _ => (st, [])
      end
  | None => (st, [])
  end.

Definition step (ev : event) (st : session) : session * list effect :=
  match ev with
  | Aborted => on_aborted st
  | Field field val => on_field field val st
  | File field name encoding mime => on_file field name encoding mime st
  | FileLimit k =>
      match parts st !! k with Some _ => on_limit k st | None => (st, []) end
  | FileData k data =>
      match parts st !! k with Some _ => on_data k data st | None => (st, []) end
  | FileEnd k truncated =>
      match parts st !! k with
      | Some p => on_end k p truncated st
      | None => (st, [])
      end
  | FileError k err =>
      match parts st !! k with Some _ => on_error k err st | None => (st, []) end
  | FilesLimit => on_filesLimit st
  | Finish => on_finish st
  | BusboyError err => (st, [ENext (Some err)])
  | Timeout t => on_timeout t st
  end.

Fixpoint run (evs : list event) (st : session) : session * list effect :=
  match evs with
  | [] => (st, [])
  | ev :: evs' =>
      let '(st1, effs1) := step ev st in
      let '(st2, effs2) := run evs' st1 in
      (st2, effs1 ++ effs2)
  end.

(** A whole call: the processor, then the events. *)
Definition process (evs : list event) : session * list effect :=
  let '(st, effs) := processMultipart in
  let '(st1, effs1) := run evs st in
  (st1, effs ++ effs1).

End Processor.

End Timed.

(** ** Sample inputs *)

(** Collaborators that leave names and mappings as they are. *)
Definition sample_ext : collaborators :=
  {| parseFileName := fun _ name => name;
     processNested := fun _ m => m;
     getHash := fun _ _ => "";
     getFilePath := fun _ _ _ => "" |}.

(** Options with an aggregate cap, a limit handler and an abort flag to
    choose; everything else is off. *)
Definition sample_options (cap : option Z) (lh : callback) (abort : bool) : options :=
  {| useTempFiles := false; limits_totalSize := cap; limitHandler := lh;
     numFilesLimitHandler := NotAFunction; abortOnLimit := abort;
     responseOnLimit := None; parseNested := false; uploadTimeout := None |}.

Definition zeros (n : nat) : chunk := repeat Byte.x00 n.

(** A session of one part of three bytes. *)
Definition sample_upload : list Capped.event :=
  [Capped.File "doc" "a.txt" "7bit" "text/plain";
   Capped.FileData 0 (zeros 3);
   Capped.FileEnd 0 false Pending].

(** ** Measures and invariants *)

(** The bytes passed to the sinks' data handlers in a list of actions. *)
Definition written (l : list effect) : Z :=
  fold_right
    (fun e n => match e with ESinkWrite _ data => chunk_length data + n | _ => n end)
    0 l.

(** The bytes of the chunks that reach a ['data'] listener: those of the
    ['data'] events of a part that exists, [nparts] being the number of
    parts before [evs]. *)
Fixpoint capped_chunks_handled (nparts : nat) (evs : list Capped.event) : Z :=
  match evs with
  | [] => 0
  | Capped.File _ _ _ _ :: evs' => capped_chunks_handled (S nparts) evs'
  | Capped.FileData k data :: evs' =>
      (if decide (k < nparts)%nat then chunk_length data else 0)
      + capped_chunks_handled nparts evs'
  | _ :: evs' => capped_chunks_handled nparts evs'
  end.

(** The registry holds one cleanup per part, in creation order. *)
Definition capped_registry_ok (st : Capped.session) : Prop :=
  Capped.cleanups st = seq 0 (length (Capped.parts st)).

Definition timed_registry_ok (st : Timed.session) : Prop :=
  Timed.cleanups st = seq 0 (length (Timed.parts st)).

(** The counter against the bytes the sinks received. *)
Definition capped_counter_ok (opts : options) (st : Capped.session) : Prop :=
  0 <= delivered (Capped.parts st) <= Capped.totalSize st
  /\ (js_gt (Some (Capped.totalSize st)) (limits_totalSize opts) = false ->
      delivered (Capped.parts st) = Capped.totalSize st)
  /\ (forall L, limits_totalSize opts = Some L ->
      delivered (Capped.parts st) <= Z.max 0 L).

(** The events that call [next] only through a pending flush barrier:
    all but ['finish'] and the two ['error'] events. *)
Definition capped_quiet (ev : Capped.event) : bool :=
  match ev with
  | Capped.Finish | Capped.FileError _ _ | Capped.BusboyError _ => false
  | _ => true
  end.

(** Before ['finish']: no continuation is pending, and
    [req[waitFlushProperty]] holds every promise handed out so far. *)
Definition capped_flush_registry_ok (st : Capped.session) : Prop :=
  Capped.barriers st = []
  /\ default [] (Capped.waitFlush st) = seq 0 (length (Capped.promises st)).

(** After ['finish']: every pending continuation waits for the first
    [n0] promises. *)
Definition capped_barriers_cover (n0 : nat) (st : Capped.session) : Prop :=
  (n0 <= length (Capped.promises st))%nat
  /\ Forall (fun b : list nat => forall h, (h < n0)%nat -> In h b)
       (Capped.barriers st).

(** How often a list of actions holds an action of the kind [f]. *)
Definition count_eff (f : effect -> bool) (l : list effect) : nat :=
  length (List.filter f l).

(** The actions that answer the client: [res.writeHead] and [res.end]. *)
Definition is_response (e : effect) : bool :=
  match e with
  | EWriteHead _ | EResEnd _ => true
  | _ => false
  end.

Definition is_unpipe (e : effect) : bool :=
  match e with
  | EUnpipe => true
  | _ => false
  end.

Definition is_clear_timeout (e : effect) : bool :=
  match e with
  | EClearTimeout _ => true
  | _ => false
  end.

(** [next(err)] with an error. *)
Definition is_error_next (e : effect) : bool :=
  match e with
  | ENext (Some _) => true
  | _ => false
  end.

(** The bytes of the chunks that reach a ['data'] listener of the
    revision with the upload timer. *)
Fixpoint timed_chunks_handled (nparts : nat) (evs : list Timed.event) : Z :=
  match evs with
  | [] => 0
  | Timed.File _ _ _ _ :: evs' => timed_chunks_handled (S nparts) evs'
  | Timed.FileData k data :: evs' =>
      (if decide (k < nparts)%nat then chunk_length data else 0)
      + timed_chunks_handled nparts evs'
  | _ :: evs' => timed_chunks_handled nparts evs'
  end.

(** The ['file'] events of a session. *)
Definition capped_is_file (ev : Capped.event) : bool :=
  match ev with
  | Capped.File _ _ _ _ => true
  | _ => false
  end.

Definition timed_is_file (ev : Timed.event) : bool :=
  match ev with
  | Timed.File _ _ _ _ => true
  | _ => false
  end.

(** The events that carry no error to pass on: all but the decoder's
    ['error'], the rejection of a promise and an ['end'] whose promise is
    rejected from the start. *)
Definition capped_error_free (ev : Capped.event) : bool :=
  match ev with
  | Capped.BusboyError _ => false
  | Capped.Settle _ (Some _) => false
  | Capped.FileEnd _ _ (Rejected _) => false
  | _ => true
  end.

Definition is_rejected (p : pstate) : bool :=
  match p with
  | Rejected _ => true
  | _ => false
  end.

Definition is_pending (p : pstate) : bool :=
  match p with
  | Pending => true
  | _ => false
  end.

Definition all_pending (a : all_state) : bool :=
  match a with
  | AllPending => true
  | _ => false
  end.

(** After ['finish']: a pending continuation waits for exactly the first
    [n0] promises, and their [Promise.all] has not settled. *)
Definition capped_barriers_pending (n0 : nat) (st : Capped.session) : Prop :=
  (n0 <= length (Capped.promises st))%nat
  /\ Forall (fun b : list nat =>
              b = seq 0 n0 /\ promise_all (Capped.promises st) b = AllPending)
       (Capped.barriers st).

(** One timer per part, each bound to its part, none of them cleared. *)
Definition timed_timers_ok (st : Timed.session) : Prop :=
  map p_timer (Timed.parts st) = map Some (seq 0 (length (Timed.parts st)))
  /\ map Timed.t_part (Timed.timers st) = seq 0 (length (Timed.parts st))
  /\ Forall (fun tm => Timed.t_state tm <> Timed.Cleared) (Timed.timers st).

(** The ['end'] events that reach an ['end'] listener, one per completed
    part: those of a part that exists, [nparts] being the number of parts
    before [evs]. *)
Fixpoint capped_ends_handled (nparts : nat) (evs : list Capped.event) : nat :=
  match evs with
  | [] => 0%nat
  | Capped.File _ _ _ _ :: evs' => capped_ends_handled (S nparts) evs'
  | Capped.FileEnd k _ _ :: evs' =>
      ((if decide (k < nparts)%nat then 1 else 0)
       + capped_ends_handled nparts evs')%nat
  | _ :: evs' => capped_ends_handled nparts evs'
  end.

(** Modelled from the spec: the decoder's per-file limit (Busboy, not
    part of this repository; [limits.fileSize] reaches it through
    [buildOptions] and the processor never reads it).  The decoder hands
    on the chunks of a part up to [fileSize] bytes, cutting the chunk that
    crosses the limit, and silently drops the bytes beyond it. *)
Fixpoint take_bytes (fileSize : nat) (body : list chunk) : list chunk :=
  match body with
  | [] => []
  | c :: body' =>
      if (length c <=? fileSize)%nat
      then c :: take_bytes (fileSize - length c) body'
      else if (fileSize =? 0)%nat then [] else [take fileSize c]
  end.

(** Modelled from the spec: the events of the decoder for part [k] whose
    content is [body]: the ['data'] events of the bytes within the limit,
    the ['limit'] signal when the content exceeds the limit, then ['end']
    with [file.truncated] set exactly in that case.  [flush] is the state
    of the promise the sink hands out at ['end']. *)
Definition busboy_part (fileSize : nat) (k : nat) (body : list chunk)
    (flush : pstate) : list Capped.event :=
  let over := Z.of_nat fileSize <? chunks_length body in
  map (Capped.FileData k) (take_bytes fileSize body)
  ++ (if over then [Capped.FileLimit k] else [])
  ++ [Capped.FileEnd k over flush].

(** ** Facts shared by both revisions *)

Lemma length_release_parts (ks : list nat) (ps : list part) :
  length (release_parts ks ps) = length ps.
Proof.
  unfold release_parts. revert ps.
  induction ks as [|k ks IH]; intros ps; simpl; [reflexivity|].
  rewrite IH. apply length_alter.
Qed.

Lemma getFileSize_release (s : sink) : getFileSize (sink_release s) = getFileSize s.
Proof. reflexivity. Qed.

Lemma delivered_app (ps qs : list part) :
  delivered (ps ++ qs) = delivered ps + delivered qs.
Proof.
  unfold delivered. induction ps as [|p ps IH]; simpl; [reflexivity|].
  rewrite IH. lia.
Qed.

Lemma delivered_alter_release (k : nat) (ps : list part) :
  delivered (alter (with_sink sink_release) k ps) = delivered ps.
Proof.
  revert k. induction ps as [|p ps IH]; intros [|k]; simpl; try reflexivity.
  f_equal. apply IH.
Qed.

Lemma delivered_release_parts (ks : list nat) (ps : list part) :
  delivered (release_parts ks ps) = delivered ps.
Proof.
  unfold release_parts. revert ps.
  induction ks as [|k ks IH]; intros ps; simpl; [reflexivity|].
  rewrite IH. apply delivered_alter_release.
Qed.

Lemma received_release_parts (ks : list nat) (ps : list part) :
  map (fun p => received (p_sink p)) (release_parts ks ps)
  = map (fun p => received (p_sink p)) ps.
Proof.
  unfold release_parts. revert ps.
  induction ks as [|k ks IH]; intros ps; simpl; [reflexivity|].
  rewrite IH. clear IH. revert k.
  induction ps as [|p ps IH]; intros [|k]; simpl; try reflexivity.
  f_equal. apply IH.
Qed.

Lemma getFileSize_write (data : chunk) (s : sink) :
  getFileSize (sink_write data s) = getFileSize s + chunk_length data.
Proof.
  unfold getFileSize, chunks_length, sink_write. simpl.
  induction (received s) as [|c cs IH]; simpl; lia.
Qed.

Lemma delivered_alter_write (data : chunk) (k : nat) (ps : list part) (p : part) :
  ps !! k = Some p ->
  delivered (alter (with_sink (sink_write data)) k ps)
  = delivered ps + chunk_length data.
Proof.
  revert k. induction ps as [|q ps IH]; intros [|k] Hk; simpl in *; try discriminate.
  - rewrite getFileSize_write. lia.
  - change (list_alter (with_sink (sink_write data)) k ps)
      with (alter (with_sink (sink_write data)) k ps).
    rewrite (IH k Hk). lia.
Qed.

Lemma chunk_length_nonneg (data : chunk) : 0 <= chunk_length data.
Proof. unfold chunk_length. lia. Qed.

Lemma count_next_app (l1 l2 : list effect) :
  count_next (l1 ++ l2) = (count_next l1 + count_next l2)%nat.
Proof. unfold count_next. rewrite List.filter_app, length_app. reflexivity. Qed.

Lemma count_next_cleanups (ks : list nat) : count_next (map ECleanup ks) = 0%nat.
Proof. induction ks as [|k ks IH]; [reflexivity|exact IH]. Qed.

Lemma count_cleanup_seq (k n : nat) :
  count_cleanup k (map ECleanup (seq 0 n)) = if decide (k < n)%nat then 1%nat else 0%nat.
Proof.
  induction n as [|n IH].
  - reflexivity.
  - rewrite seq_S, map_app. unfold count_cleanup in *.
    rewrite List.filter_app, length_app, IH. simpl.
    destruct (Nat.eqb_spec n k) as [->|Hne];
      repeat case_decide; simpl; try lia; try congruence.
Qed.

Lemma written_app (l1 l2 : list effect) :
  written (l1 ++ l2) = written l1 + written l2.
Proof.
  unfold written. induction l1 as [|e l1 IH]; simpl; [reflexivity|].
  rewrite IH. destruct e; lia.
Qed.

Lemma written_cleanups (ks : list nat) : written (map ECleanup ks) = 0.
Proof. induction ks as [|k ks IH]; [reflexivity|exact IH]. Qed.

Lemma written_call_limitHandler (opts : options) :
  written [call_limitHandler opts] = 0.
Proof. unfold call_limitHandler. destruct (limitHandler opts); reflexivity. Qed.

Lemma count_next_cons (e : effect) (l : list effect) :
  count_next (e :: l) = ((if is_next e then 1 else 0) + count_next l)%nat.
Proof. unfold count_next. simpl. destruct (is_next e); reflexivity. Qed.

Lemma is_next_call_limitHandler (opts : options) :
  is_next (call_limitHandler opts) = false.
Proof. unfold call_limitHandler. destruct (limitHandler opts); reflexivity. Qed.

(** Rewrites the number of [next] calls in a list built from conses,
    appends, cleanups and a limit handler call. *)
Ltac count_next_norm :=
  rewrite ?count_next_cons, ?count_next_app, ?count_next_cleanups,
    ?count_next_cons, ?is_next_call_limitHandler;
  simpl.

Lemma split_around {A : Type} (pre post done rest : list A) (x ev : A) :
  pre ++ x :: post = done ++ ev :: rest ->
  (exists l, pre = done ++ ev :: l)
  \/ (done = pre /\ ev = x /\ rest = post)
  \/ (exists l, done = pre ++ x :: l /\ post = l ++ ev :: rest).
Proof.
  revert done. induction pre as [|a pre IH]; intros [|d done] Heq; simpl in *.
  - injection Heq as -> ->. right. left. repeat split.
  - injection Heq as -> ->. right. right. exists done. split; reflexivity.
  - injection Heq as -> <-. left. exists pre. reflexivity.
  - injection Heq as -> Heq. destruct (IH done Heq) as [(l & ->)|[(-> & -> & ->)|(l & -> & ->)]].
    + left. exists l. reflexivity.
    + right. left. repeat split.
    + right. right. exists l. split; reflexivity.
Qed.

Lemma chunks_length_nonneg (cs : list chunk) : 0 <= chunks_length cs.
Proof.
  induction cs as [|c cs IH]; simpl; [lia|].
  pose proof (chunk_length_nonneg c). lia.
Qed.

Lemma js_gt_mono (a b : Z) (l : option Z) :
  a <= b -> js_gt (Some b) l = false -> js_gt (Some a) l = false.
Proof.
  intros Hle. unfold js_gt. destruct l as [L|]; [|reflexivity].
  destruct (Z.gtb_spec b L); [discriminate|].
  destruct (Z.gtb_spec a L); [lia|reflexivity].
Qed.

(** [buildFields] puts the value under its key, last in arrival order. *)
Lemma buildFields_adds {A : Type} (instance : option (gmap string (entry A)))
    (field : string) (value : A) :
  exists m, buildFields instance field value = Some m
    /\ (m !! field = Some (Single value)
        \/ exists l, m !! field = Some (Many (l ++ [value]))).
Proof.
  unfold buildFields. eexists. split; [reflexivity|].
  destruct (default ∅ instance !! field) as [[a|l]|]; rewrite lookup_insert_eq.
  - right. exists [a]. reflexivity.
  - right. exists l. reflexivity.
  - left. reflexivity.
Qed.

Lemma written_nonneg (l : list effect) : 0 <= written l.
Proof.
  induction l as [|e l IH]; simpl; [lia|].
  destruct e; try exact IH. pose proof (chunk_length_nonneg data). lia.
Qed.

Lemma promise_all_fulfilled (ps : list pstate) (hs : list nat) :
  promise_all ps hs = AllFulfilled ->
  forall h, In h hs -> ps !! h = Some Fulfilled.
Proof.
  unfold promise_all. destruct (first_rejection ps hs); [discriminate|].
  destruct (forallb (is_fulfilled ps) hs) eqn:Hall; [|discriminate].
  intros _ h Hin. rewrite forallb_forall in Hall. specialize (Hall h Hin).
  unfold is_fulfilled in Hall.
  destruct (ps !! h) as [[| |e]|]; try discriminate. reflexivity.
Qed.

Lemma length_settle (h : nat) (r : option error) (ps : list pstate) :
  length (settle h r ps) = length ps.
Proof.
  unfold settle. destruct (ps !! h) as [[| |e]|]; try reflexivity.
  apply length_insert.
Qed.

Lemma count_next_cons_next (err : option error) (l : list effect) :
  count_next (ENext err :: l) = S (count_next l).
Proof. reflexivity. Qed.

Lemma in_next_count (err : option error) (l : list effect) :
  In (ENext err) l -> (1 <= count_next l)%nat.
Proof.
  intros Hin. apply in_split in Hin as (l1 & l2 & ->).
  rewrite count_next_app, count_next_cons_next. lia.
Qed.

(** ** The revision with the aggregate cap: invariants *)

Section CappedFacts.

Variable ext : collaborators.
Variable opts : options.

Local Abbreviation step := (Capped.step ext opts).
Local Abbreviation run := (Capped.run ext opts).
Local Abbreviation process := (Capped.process ext opts).

(** A property kept by every event holds after every sequence of events. *)
Lemma capped_run_invariant (P : Capped.session -> Prop) :
  (forall ev st, P st -> P (step ev st).1) ->
  forall evs st, P st -> P (run evs st).1.
Proof.
  intros Hstep evs. induction evs as [|ev evs IH]; intros st HP; simpl; [exact HP|].
  specialize (Hstep ev st HP).
  destruct (step ev st) as [st1 effs1]. simpl in Hstep.
  specialize (IH st1 Hstep).
  destruct (run evs st1) as [st2 effs2]. exact IH.
Qed.

Lemma capped_run_app (evs1 evs2 : list Capped.event) (st : Capped.session) :
  run (evs1 ++ evs2) st
  = let '(st1, effs1) := run evs1 st in
    let '(st2, effs2) := run evs2 st1 in
    (st2, effs1 ++ effs2).
Proof.
  revert st. induction evs1 as [|ev evs1 IH]; intros st; simpl.
  - destruct (run evs2 st). reflexivity.
  - destruct (step ev st) as [st1 effs1]. rewrite IH.
    destruct (run evs1 st1) as [st2 effs2].
    destruct (run evs2 st2) as [st3 effs3].
    rewrite app_assoc. reflexivity.
Qed.

(** The ['finish'] handler touches only the mappings. *)
Lemma capped_handler_frame (err : option error) (st : Capped.session) :
  let st' := (Capped.handler ext opts err st).1 in
  Capped.totalSize st' = Capped.totalSize st
  /\ Capped.cleanups st' = Capped.cleanups st
  /\ Capped.parts st' = Capped.parts st
  /\ Capped.promises st' = Capped.promises st
  /\ Capped.barriers st' = Capped.barriers st
  /\ Capped.waitFlush st' = Capped.waitFlush st.
Proof.
  unfold Capped.handler. destruct (parseNested opts); simpl; repeat split.
Qed.

Lemma capped_run_barriers_frame (bs : list (list nat)) (st : Capped.session) :
  let st' := (Capped.run_barriers ext opts bs st).1 in
  Capped.totalSize st' = Capped.totalSize st
  /\ Capped.cleanups st' = Capped.cleanups st
  /\ Capped.parts st' = Capped.parts st
  /\ Capped.promises st' = Capped.promises st.
Proof.
  revert st. induction bs as [|hs bs IH]; intros st; simpl; [repeat split|].
  destruct (promise_all (Capped.promises st) hs) as [| |e].
  - specialize (IH (Capped.set_barriers (Capped.barriers st ++ [hs]) st)).
    destruct (Capped.run_barriers ext opts bs _) as [st2 effs2]. exact IH.
  - unfold Capped.on_all_fulfilled.
    pose proof (capped_handler_frame None (Capped.set_waitFlush None st)) as Hh.
    destruct (Capped.handler ext opts None _) as [st1 effs1]. simpl in Hh.
    specialize (IH st1).
    destruct (Capped.run_barriers ext opts bs st1) as [st2 effs2]. simpl in *.
    destruct Hh as (H1 & H2 & H3 & H4 & _), IH as (I1 & I2 & I3 & I4).
    repeat split; congruence.
  - unfold Capped.on_all_rejected.
    pose proof (capped_handler_frame (Some e) (Capped.set_waitFlush None st)) as Hh.
    destruct (Capped.handler ext opts (Some e) _) as [st1 effs1]. simpl in Hh.
    specialize (IH st1).
    destruct (Capped.run_barriers ext opts bs st1) as [st2 effs2]. simpl in *.
    destruct Hh as (H1 & H2 & H3 & H4 & _), IH as (I1 & I2 & I3 & I4).
    repeat split; congruence.
Qed.

Lemma capped_registry_step (ev : Capped.event) (st : Capped.session) :
  capped_registry_ok st -> capped_registry_ok (step ev st).1.
Proof.
  unfold capped_registry_ok. intros Hst.
  destruct ev as [|f v|f n e m|k|k data|k tr fl|k err| | |err|h r]; simpl;
    try (destruct (Capped.parts st !! k) as [p|]; [|exact Hst]).
  - (* aborted *) simpl. rewrite length_release_parts. exact Hst.
  - (* field *) exact Hst.
  - (* file *) simpl. rewrite length_app, Nat.add_1_r, seq_S, Hst. reflexivity.
  - (* limit *) unfold Capped.on_limit.
    destruct (isFunc (limitHandler opts)); [|destruct (abortOnLimit opts)];
      simpl; rewrite ?length_release_parts; exact Hst.
  - (* data *) unfold Capped.on_data.
    match goal with |- context [js_gt ?a ?b] => destruct (js_gt a b) end; simpl;
      rewrite ?length_release_parts, ?length_alter; exact Hst.
  - (* end *) exact Hst.
  - (* error *) simpl. rewrite length_release_parts. exact Hst.
  - (* filesLimit *) unfold Capped.on_filesLimit.
    destruct (numFilesLimitHandler opts); exact Hst.
  - (* finish *) unfold Capped.on_finish.
    destruct (Capped.waitFlush st) as [hs|].
    + pose proof (capped_run_barriers_frame [hs] st) as (_ & Hc & Hp & _).
      rewrite Hc, Hp. exact Hst.
    + pose proof (capped_handler_frame None st) as (_ & Hc & Hp & _).
      rewrite Hc, Hp. exact Hst.
  - (* busboy error *) exact Hst.
  - (* settle *) unfold Capped.on_settle.
    match goal with |- context [Capped.run_barriers ext opts ?bs ?s] =>
      pose proof (capped_run_barriers_frame bs s) as (_ & Hc & Hp & _) end.
    rewrite Hc, Hp. exact Hst.
Qed.

Lemma capped_registry_run (evs : list Capped.event) :
  capped_registry_ok (run evs Capped.init).1.
Proof.
  apply capped_run_invariant; [apply capped_registry_step|reflexivity].
Qed.

(** The continuations of the ['finish'] listener only call [next]. *)
Lemma capped_run_barriers_written (bs : list (list nat)) (st : Capped.session) :
  written (Capped.run_barriers ext opts bs st).2 = 0.
Proof.
  revert st. induction bs as [|hs bs IH]; intros st; simpl; [reflexivity|].
  destruct (promise_all (Capped.promises st) hs) as [| |e].
  - specialize (IH (Capped.set_barriers (Capped.barriers st ++ [hs]) st)).
    destruct (Capped.run_barriers ext opts bs _) as [st2 effs2]. exact IH.
  - unfold Capped.on_all_fulfilled, Capped.handler.
    match goal with |- context [Capped.run_barriers ext opts bs ?s] =>
      specialize (IH s); destruct (Capped.run_barriers ext opts bs s) end.
    exact IH.
  - unfold Capped.on_all_rejected, Capped.handler.
    match goal with |- context [Capped.run_barriers ext opts bs ?s] =>
      specialize (IH s); destruct (Capped.run_barriers ext opts bs s) end.
    exact IH.
Qed.

(** What one event does to the counter, to the bytes the sinks hold and
    to the bytes written: only a ['data'] event of an existing part
    changes any of them. *)
Lemma capped_step_measure (ev : Capped.event) (st : Capped.session) :
  let r := step ev st in
  (exists k data p,
      ev = Capped.FileData k data /\ Capped.parts st !! k = Some p
      /\ Capped.totalSize r.1 = Capped.totalSize st + chunk_length data
      /\ (js_gt (Some (Capped.totalSize st + chunk_length data))
            (limits_totalSize opts) = true
          /\ delivered (Capped.parts r.1) = delivered (Capped.parts st)
          /\ written r.2 = 0
          \/
          js_gt (Some (Capped.totalSize st + chunk_length data))
            (limits_totalSize opts) = false
          /\ delivered (Capped.parts r.1)
             = delivered (Capped.parts st) + chunk_length data
          /\ written r.2 = chunk_length data))
  \/ ((forall k data, ev = Capped.FileData k data -> Capped.parts st !! k = None)
      /\ Capped.totalSize r.1 = Capped.totalSize st
      /\ delivered (Capped.parts r.1) = delivered (Capped.parts st)
      /\ written r.2 = 0).
Proof.
  destruct ev as [|f v|f n e m|k|k data|k tr fl|k err| | |err|h r]; simpl.
  - (* aborted *) right. rewrite delivered_release_parts, written_cleanups.
    repeat split; discriminate.
  - (* field *) right. repeat split; discriminate.
  - (* file *) right. rewrite delivered_app. simpl.
    repeat split; try discriminate. unfold getFileSize. simpl. lia.
  - (* limit *) right. split; [discriminate|].
    destruct (Capped.parts st !! k) as [p|]; [|repeat split].
    unfold Capped.on_limit.
    destruct (isFunc (limitHandler opts)); [|destruct (abortOnLimit opts)]; simpl;
      rewrite ?delivered_release_parts, ?written_app, ?written_cleanups,
        ?written_call_limitHandler;
      repeat split.
  - (* data *) destruct (Capped.parts st !! k) as [p|] eqn:Hk.
    + left. exists k, data, p. split; [reflexivity|]. split; [exact Hk|].
      unfold Capped.on_data. cbn [Capped.totalSize Capped.set_totalSize].
      destruct (js_gt (Some (Capped.totalSize st + chunk_length data))
                  (limits_totalSize opts)) eqn:Hgt; simpl.
      * split; [reflexivity|]. left. split; [exact Hgt|].
        rewrite delivered_release_parts, written_app, written_cleanups,
          written_call_limitHandler.
        split; reflexivity.
      * split; [reflexivity|]. right. split; [exact Hgt|].
        rewrite (delivered_alter_write data k _ p Hk). split; [reflexivity|lia].
    + right. repeat split. intros k' data' Heq. congruence.
  - (* end *) right. split; [discriminate|].
    destruct (Capped.parts st !! k) as [p|]; repeat split.
  - (* error *) right. split; [discriminate|].
    destruct (Capped.parts st !! k) as [p|]; [|repeat split]. simpl.
    rewrite delivered_release_parts, written_app, written_cleanups.
    repeat split.
  - (* filesLimit *) right. unfold Capped.on_filesLimit.
    destruct (numFilesLimitHandler opts); repeat split; discriminate.
  - (* finish *) right. split; [discriminate|]. unfold Capped.on_finish.
    destruct (Capped.waitFlush st) as [hs|].
    + pose proof (capped_run_barriers_frame [hs] st) as (Ht & _ & Hp & _).
      rewrite Ht, Hp, capped_run_barriers_written. repeat split.
    + pose proof (capped_handler_frame None st) as (Ht & _ & Hp & _).
      rewrite Ht, Hp. repeat split.
  - (* busboy error *) right. repeat split; discriminate.
  - (* settle *) right. split; [discriminate|]. unfold Capped.on_settle.
    match goal with |- context [Capped.run_barriers ext opts ?bs ?s] =>
      pose proof (capped_run_barriers_frame bs s) as (Ht & _ & Hp & _) end.
    rewrite Ht, Hp, capped_run_barriers_written. repeat split.
Qed.

Lemma capped_counter_step (ev : Capped.event) (st : Capped.session) :
  capped_counter_ok opts st -> capped_counter_ok opts (step ev st).1.
Proof.
  unfold capped_counter_ok. intros (Hle & Heq & Hcap).
  destruct (capped_step_measure ev st)
    as [(k & data & p & _ & _ & Ht & [(Hgt & Hd & _)|(Hgt & Hd & _)])
       |(_ & Ht & Hd & _)];
    rewrite Ht, Hd; pose proof (chunk_length_nonneg data) as Hlen || idtac.
  - (* the chunk overflows *)
    repeat split; [lia|lia| |exact Hcap].
    rewrite Hgt. discriminate.
  - (* the chunk fits *)
    assert (Hold : delivered (Capped.parts st) = Capped.totalSize st).
    { apply Heq. unfold js_gt in *. destruct (limits_totalSize opts) as [L|];
        [|reflexivity].
      destruct (Z.gtb_spec (Capped.totalSize st) L); [|reflexivity].
      destruct (Z.gtb_spec (Capped.totalSize st + chunk_length data) L);
        [discriminate|lia]. }
    repeat split; [lia|lia|lia|].
    intros L HL. unfold js_gt in Hgt. rewrite HL in Hgt.
    destruct (Z.gtb_spec (Capped.totalSize st + chunk_length data) L);
      [discriminate|lia].
  - repeat split; [lia|lia|exact Heq|exact Hcap].
Qed.

Lemma capped_counter_run (evs : list Capped.event) :
  capped_counter_ok opts (run evs Capped.init).1.
Proof.
  apply capped_run_invariant; [apply capped_counter_step|].
  unfold capped_counter_ok. simpl. repeat split; try lia.
Qed.

(** The bytes written over a run are the bytes the sinks gained. *)
Lemma capped_written_run (evs : list Capped.event) (st : Capped.session) :
  written (run evs st).2
  = delivered (Capped.parts (run evs st).1) - delivered (Capped.parts st).
Proof.
  revert st. induction evs as [|ev evs IH]; intros st; simpl; [lia|].
  assert (Hs : written (step ev st).2
               = delivered (Capped.parts (step ev st).1)
                 - delivered (Capped.parts st)).
  { destruct (capped_step_measure ev st)
      as [(k & data & p & _ & _ & _ & [(_ & Hd & Hw)|(_ & Hd & Hw)])
         |(_ & _ & Hd & Hw)]; rewrite Hd, Hw; lia. }
  destruct (step ev st) as [st1 effs1]. specialize (IH st1).
  destruct (run evs st1) as [st2 effs2]. simpl in *.
  rewrite written_app. lia.
Qed.

Lemma capped_step_parts_length (ev : Capped.event) (st : Capped.session) :
  length (Capped.parts (step ev st).1)
  = match ev with
    | Capped.File _ _ _ _ => S (length (Capped.parts st))
    | _ => length (Capped.parts st)
    end.
Proof.
  destruct ev as [|f v|f n e m|k|k data|k tr fl|k err| | |err|h r]; simpl;
    try (destruct (Capped.parts st !! k) as [p|]; [|reflexivity]).
  - apply length_release_parts.
  - reflexivity.
  - rewrite length_app. simpl. lia.
  - unfold Capped.on_limit.
    destruct (isFunc (limitHandler opts)); [|destruct (abortOnLimit opts)];
      simpl; rewrite ?length_release_parts; reflexivity.
  - unfold Capped.on_data.
    match goal with |- context [js_gt ?a ?b] => destruct (js_gt a b) end; simpl;
      rewrite ?length_release_parts, ?length_alter; reflexivity.
  - reflexivity.
  - simpl. apply length_release_parts.
  - unfold Capped.on_filesLimit. destruct (numFilesLimitHandler opts); reflexivity.
  - unfold Capped.on_finish. destruct (Capped.waitFlush st) as [hs|].
    + pose proof (capped_run_barriers_frame [hs] st) as (_ & _ & Hp & _).
      rewrite Hp. reflexivity.
    + pose proof (capped_handler_frame None st) as (_ & _ & Hp & _).
      rewrite Hp. reflexivity.
  - reflexivity.
  - unfold Capped.on_settle.
    match goal with |- context [Capped.run_barriers ext opts ?bs ?s] =>
      pose proof (capped_run_barriers_frame bs s) as (_ & _ & Hp & _) end.
    rewrite Hp. reflexivity.
Qed.

(** The counter grows by the chunks that reach a ['data'] listener. *)
Lemma capped_counter_handled (evs : list Capped.event) (st : Capped.session) :
  Capped.totalSize (run evs st).1
  = Capped.totalSize st
    + capped_chunks_handled (length (Capped.parts st)) evs.
Proof.
  revert st. induction evs as [|ev evs IH]; intros st; simpl; [lia|].
  pose proof (capped_step_parts_length ev st) as Hlen.
  pose proof (capped_step_measure ev st) as Hm.
  destruct (step ev st) as [st1 effs1]. specialize (IH st1).
  destruct (run evs st1) as [st2 effs2]. simpl in *. rewrite IH.
  destruct Hm as [(k & data & p & -> & Hk & Ht & _)|(Hnone & Ht & _)].
  - rewrite Ht, Hlen. apply lookup_lt_Some in Hk.
    destruct (decide (k < length (Capped.parts st))%nat); lia.
  - rewrite Ht, Hlen. destruct ev; try lia.
    specialize (Hnone k data eq_refl). apply lookup_ge_None in Hnone.
    destruct (decide (k < length (Capped.parts st))%nat); lia.
Qed.

(** ** The fast reject and the strictness of both caps *)

(** C4: when the declared Content-Length exceeds [limits.totalSize], the
    processor calls the configured limit handler once and returns before
    the decoder is constructed: whatever the environment delivers later,
    the limit handler call is the only action of the whole call, no
    session exists and no sink is created. *)
Theorem fast_reject_before_decoder (n L : Z) (h : nat) (evs : list Capped.event) :
  limits_totalSize opts = Some L ->
  limitHandler opts = Function h ->
  L < n ->
  Capped.processMultipart opts (Some n) = Capped.Returned [ELimitHandler h]
  /\ process (Some n) evs = (None, [ELimitHandler h])
  /\ Capped.sinks_created (process (Some n) evs) = 0%nat.
Proof.
  intros HL Hh Hlt.
  assert (Hp : Capped.processMultipart opts (Some n) = Capped.Returned [ELimitHandler h]).
  { unfold Capped.processMultipart, call_limitHandler. rewrite HL, Hh. simpl.
    destruct (Z.gtb_spec n L); [reflexivity|lia]. }
  split; [exact Hp|].
  unfold Capped.sinks_created, Capped.process. rewrite Hp. split; reflexivity.
Qed.

(** C10: both caps compare with a strict [>].  A declared Content-Length
    equal to [limits.totalSize] is not rejected: the decoder is
    constructed and the request piped into it.  A chunk that brings the
    counter to exactly [limits.totalSize] is written to its sink, with no
    unpipe, cleanup or limit handler call. *)
Theorem caps_are_strict (L : Z) :
  limits_totalSize opts = Some L ->
  Capped.processMultipart opts (Some L)
  = Capped.Started Capped.init [ENewBusboy; EPipe]
  /\ forall (st : Capped.session) (k : nat) (p : part) (data : chunk),
      Capped.parts st !! k = Some p ->
      Capped.totalSize st + chunk_length data = L ->
      step (Capped.FileData k data) st
      = (Capped.set_parts
           (alter (with_sink (sink_write data)) k (Capped.parts st))
           (Capped.set_totalSize L st),
         [ESinkWrite k data]).
Proof.
  intros HL. split.
  - unfold Capped.processMultipart. rewrite HL. simpl.
    destruct (Z.gtb_spec L L); [lia|reflexivity].
  - intros st k p data Hk Hsum. simpl. rewrite Hk.
    unfold Capped.on_data. rewrite HL. simpl. rewrite Hsum.
    destruct (Z.gtb_spec L L); [lia|reflexivity].
Qed.

(** C9: when [options.limitHandler] is not a function, the fast reject
    and the aggregate-limit branch of the ['data'] listener call it all
    the same, and the call throws; the ['limit'] listener tests it with
    [isFunc] first and goes on to the [abortOnLimit] test without a
    call. *)
Theorem unguarded_limit_handler_calls :
  limitHandler opts = NotAFunction ->
  (forall n L : Z,
      limits_totalSize opts = Some L -> L < n ->
      Capped.processMultipart opts (Some n) = Capped.Returned [EThrowTypeError])
  /\ (forall (st : Capped.session) (k : nat) (p : part) (data : chunk) (L : Z),
        limits_totalSize opts = Some L ->
        Capped.parts st !! k = Some p ->
        L < Capped.totalSize st + chunk_length data ->
        (step (Capped.FileData k data) st).2
        = EUnpipe :: map ECleanup (Capped.cleanups st) ++ [EThrowTypeError])
  /\ (forall (st : Capped.session) (k : nat) (p : part),
        Capped.parts st !! k = Some p ->
        (step (Capped.FileLimit k) st).2
        = if abortOnLimit opts
          then closeConnection (Some 413) (responseOnLimit opts)
                 ++ map ECleanup (Capped.cleanups st)
          else []).
Proof.
  intros Hlh. repeat split.
  - intros n L HL Hlt. unfold Capped.processMultipart, call_limitHandler.
    rewrite HL, Hlh. simpl. destruct (Z.gtb_spec n L); [reflexivity|lia].
  - intros st k p data L HL Hk Hlt. simpl. rewrite Hk.
    unfold Capped.on_data, call_limitHandler. rewrite HL, Hlh. simpl.
    destruct (Z.gtb_spec (Capped.totalSize st + chunk_length data) L);
      [reflexivity|lia].
  - intros st k p Hk. simpl. rewrite Hk. unfold Capped.on_limit.
    rewrite Hlh. simpl. destruct (abortOnLimit opts); reflexivity.
Qed.

(** ** The aggregate counter *)

(** C2 (amended): the counter never decreases, and it equals the bytes of
    all chunks that reached a ['data'] listener.  The bytes passed to the
    sinks' data handlers never exceed it, and equal it as long as the
    counter has not passed [limits.totalSize]; once a chunk has pushed it
    over the cap, the counter also holds the bytes of the chunks that
    were not passed on. *)
Theorem total_size_counts_handled_chunks :
  (forall ev st, Capped.totalSize st <= Capped.totalSize (step ev st).1)
  /\ forall evs : list Capped.event,
      let r := run evs Capped.init in
      Capped.totalSize r.1 = capped_chunks_handled 0 evs
      /\ written r.2 = delivered (Capped.parts r.1)
      /\ written r.2 <= Capped.totalSize r.1
      /\ (js_gt (Some (Capped.totalSize r.1)) (limits_totalSize opts) = false ->
          Capped.totalSize r.1 = written r.2).
Proof.
  split.
  - intros ev st.
    destruct (capped_step_measure ev st)
      as [(k & data & p & _ & _ & Ht & _)|(_ & Ht & _)]; rewrite Ht;
      [pose proof (chunk_length_nonneg data)|]; lia.
  - intros evs r. subst r.
    pose proof (capped_counter_run evs) as (Hle & Heq & _).
    pose proof (capped_written_run evs Capped.init) as Hw.
    pose proof (capped_counter_handled evs Capped.init) as Hh.
    simpl in Hw, Hh. change (delivered []) with 0 in Hw.
    repeat split; try lia.
    intros Hgt. specialize (Heq Hgt). lia.
Qed.

(** C3: the ['data'] listener adds the chunk length to the counter and
    compares it with [limits.totalSize] before anything reaches the sink.
    When the new counter exceeds the cap it unpipes the request, runs
    every registered cleanup and calls [options.limitHandler] (the
    handler itself when one is configured), in this order, and the chunk
    is not written: the bytes the sinks hold are unchanged.  Otherwise
    the chunk is written to the sink of its part.  So, over any sequence
    of events, the bytes written to the sinks stay within the cap. *)
Theorem aggregate_check_precedes_sink_write :
  (forall (st : Capped.session) (k : nat) (p : part) (data : chunk) (L : Z),
      limits_totalSize opts = Some L ->
      Capped.parts st !! k = Some p ->
      L < Capped.totalSize st + chunk_length data ->
      step (Capped.FileData k data) st
      = (Capped.set_parts
           (release_parts (Capped.cleanups st) (Capped.parts st))
           (Capped.set_totalSize (Capped.totalSize st + chunk_length data) st),
         EUnpipe :: map ECleanup (Capped.cleanups st) ++ [call_limitHandler opts])
      /\ map (fun q => received (p_sink q))
           (Capped.parts (step (Capped.FileData k data) st).1)
         = map (fun q => received (p_sink q)) (Capped.parts st))
  /\ (forall h : nat,
        limitHandler opts = Function h -> call_limitHandler opts = ELimitHandler h)
  /\ (forall (st : Capped.session) (k : nat) (p : part) (data : chunk),
        Capped.parts st !! k = Some p ->
        js_gt (Some (Capped.totalSize st + chunk_length data))
          (limits_totalSize opts) = false ->
        step (Capped.FileData k data) st
        = (Capped.set_parts
             (alter (with_sink (sink_write data)) k (Capped.parts st))
             (Capped.set_totalSize (Capped.totalSize st + chunk_length data) st),
           [ESinkWrite k data]))
  /\ (forall (evs : list Capped.event) (L : Z),
        limits_totalSize opts = Some L ->
        written (run evs Capped.init).2 <= Z.max 0 L).
Proof.
  split; [|split; [|split]].
  - intros st k p data L HL Hk Hlt.
    assert (Hstep : step (Capped.FileData k data) st
      = (Capped.set_parts
           (release_parts (Capped.cleanups st) (Capped.parts st))
           (Capped.set_totalSize (Capped.totalSize st + chunk_length data) st),
         EUnpipe :: map ECleanup (Capped.cleanups st) ++ [call_limitHandler opts])).
    { simpl. rewrite Hk. unfold Capped.on_data.
      cbn [Capped.totalSize Capped.set_totalSize]. rewrite HL. simpl.
      destruct (Z.gtb_spec (Capped.totalSize st + chunk_length data) L);
        [reflexivity|lia]. }
    split; [exact Hstep|]. rewrite Hstep. simpl. apply received_release_parts.
  - intros h Hh. unfold call_limitHandler. rewrite Hh. reflexivity.
  - intros st k p data Hk Hgt. simpl. rewrite Hk. unfold Capped.on_data.
    cbn [Capped.totalSize Capped.set_totalSize]. rewrite Hgt. reflexivity.
  - intros evs L HL.
    pose proof (capped_counter_run evs) as (_ & _ & Hcap).
    pose proof (capped_written_run evs Capped.init) as Hw.
    simpl in Hw. change (delivered []) with 0 in Hw.
    specialize (Hcap L HL). lia.
Qed.

(** ** The flush barrier *)

Lemma capped_handler_effects (err : option error) (st : Capped.session) :
  (Capped.handler ext opts err st).2 = [ENext err].
Proof. reflexivity. Qed.

(** Every continuation either stays pending or calls [next] once; a call
    without an error comes from a [Promise.all] that is fulfilled. *)
Lemma capped_run_barriers_spec (bs : list (list nat)) (st : Capped.session) :
  let r := Capped.run_barriers ext opts bs st in
  (count_next r.2 + length (Capped.barriers r.1)
   = length bs + length (Capped.barriers st))%nat
  /\ (forall P : list nat -> Prop,
        Forall P bs -> Forall P (Capped.barriers st) ->
        Forall P (Capped.barriers r.1))
  /\ (In (ENext None) r.2 ->
      exists b, In b bs /\ promise_all (Capped.promises st) b = AllFulfilled).
Proof.
  revert st. induction bs as [|hs bs IH]; intros st; simpl.
  - split; [reflexivity|]. split; [intros P _ HP; exact HP|]. intros [].
  - destruct (promise_all (Capped.promises st) hs) as [| |e] eqn:Hall.
    + specialize (IH (Capped.set_barriers (Capped.barriers st ++ [hs]) st)).
      destruct (Capped.run_barriers ext opts bs _) as [st2 effs2].
      simpl in *. destruct IH as (Hc & HP & Hin).
      rewrite length_app in Hc. simpl in Hc.
      split; [lia|]. split.
      * intros P Hbs Hst. inversion Hbs; subst. apply HP; [assumption|].
        apply Forall_app. split; [assumption|]. constructor; [assumption|constructor].
      * intros Hi. destruct (Hin Hi) as (b & Hb & Hf). exists b. split; [right; exact Hb|exact Hf].
    + unfold Capped.on_all_fulfilled.
      pose proof (capped_handler_frame None (Capped.set_waitFlush None st))
        as (_ & _ & _ & Hp & Hb & _).
      pose proof (capped_handler_effects None (Capped.set_waitFlush None st)) as He.
      destruct (Capped.handler ext opts None _) as [st1 effs1].
      simpl in Hp, Hb, He. subst effs1. specialize (IH st1).
      destruct (Capped.run_barriers ext opts bs st1) as [st2 effs2].
      simpl in *. rewrite Hp, Hb in IH. destruct IH as (Hc & HP & Hin).
      split; [unfold count_next in *; lia|].
      split.
      * intros P Hbs Hst. inversion Hbs; subst. apply HP; assumption.
      * intros _. exists hs. split; [left; reflexivity|exact Hall].
    + unfold Capped.on_all_rejected.
      pose proof (capped_handler_frame (Some e) (Capped.set_waitFlush None st))
        as (_ & _ & _ & Hp & Hb & _).
      pose proof (capped_handler_effects (Some e) (Capped.set_waitFlush None st)) as He.
      destruct (Capped.handler ext opts (Some e) _) as [st1 effs1].
      simpl in Hp, Hb, He. subst effs1. specialize (IH st1).
      destruct (Capped.run_barriers ext opts bs st1) as [st2 effs2].
      simpl in *. rewrite Hp, Hb in IH. destruct IH as (Hc & HP & Hin).
      split; [unfold count_next in *; lia|].
      split.
      * intros P Hbs Hst. inversion Hbs; subst. apply HP; assumption.
      * intros [Heq|Hi]; [discriminate|].
        destruct (Hin Hi) as (b & Hb' & Hf). exists b. split; [right; exact Hb'|exact Hf].
Qed.

(** An event other than ['finish'], an ['error'] or a settlement calls no
    [next] and leaves the pending continuations alone; only ['end'] hands
    out a promise, which it appends to [req[waitFlushProperty]]. *)
Lemma capped_quiet_step (ev : Capped.event) (st : Capped.session) :
  capped_quiet ev = true ->
  (exists h r, ev = Capped.Settle h r)
  \/ (count_next (step ev st).2 = 0%nat
      /\ Capped.barriers (step ev st).1 = Capped.barriers st
      /\ (Capped.promises (step ev st).1 = Capped.promises st
           /\ Capped.waitFlush (step ev st).1 = Capped.waitFlush st
          \/ exists fl,
              Capped.promises (step ev st).1 = Capped.promises st ++ [fl]
              /\ Capped.waitFlush (step ev st).1
                 = Some (default [] (Capped.waitFlush st)
                           ++ [length (Capped.promises st)]))).
Proof.
  intros Hq.
  destruct ev as [|f v|f n e m|k|k data|k tr fl|k err| | |err|h r];
    try discriminate; simpl;
    try (destruct (Capped.parts st !! k) as [p|];
         [|right; split; [|split; [|left; split]]; reflexivity]).
  - (* aborted *) right. simpl. rewrite count_next_cleanups.
    split; [|split; [|left; split]]; reflexivity.
  - (* field *) right. split; [|split; [|left; split]]; reflexivity.
  - (* file *) right. split; [|split; [|left; split]]; reflexivity.
  - (* limit *) right. unfold Capped.on_limit.
    destruct (isFunc (limitHandler opts)); [|destruct (abortOnLimit opts)];
      (split; [|split; [|left; split]]; try reflexivity); simpl;
      count_next_norm; reflexivity.
  - (* data *) right. unfold Capped.on_data.
    match goal with |- context [js_gt ?a ?b] => destruct (js_gt a b) end;
      (split; [|split; [|left; split]]; try reflexivity); simpl;
      count_next_norm; reflexivity.
  - (* end *) right. simpl. split; [reflexivity|]. split; [reflexivity|].
    right. exists fl. split; [reflexivity|].
    destruct (Capped.waitFlush st); reflexivity.
  - (* filesLimit *) right. unfold Capped.on_filesLimit.
    destruct (numFilesLimitHandler opts);
      (split; [|split; [|left; split]]; reflexivity).
  - (* settle *) left. exists h, r. reflexivity.
Qed.

Lemma capped_flush_registry_step (ev : Capped.event) (st : Capped.session) :
  capped_quiet ev = true ->
  capped_flush_registry_ok st ->
  capped_flush_registry_ok (step ev st).1 /\ count_next (step ev st).2 = 0%nat.
Proof.
  unfold capped_flush_registry_ok. intros Hq (Hb & Hw).
  destruct (capped_quiet_step ev st Hq)
    as [(h & r & ->)|(Hc & Hb' & [(Hp & Hw')|(fl & Hp & Hw')])].
  - simpl. unfold Capped.on_settle. simpl. rewrite Hb. simpl.
    rewrite length_settle. repeat split. exact Hw.
  - rewrite Hb', Hp, Hw'. repeat split; assumption.
  - rewrite Hb', Hp, Hw'. repeat split; try assumption.
    simpl. rewrite Hw, length_app, Nat.add_1_r, seq_S. reflexivity.
Qed.

Lemma capped_flush_registry_run (evs : list Capped.event) (st : Capped.session) :
  forallb capped_quiet evs = true ->
  capped_flush_registry_ok st ->
  capped_flush_registry_ok (run evs st).1 /\ count_next (run evs st).2 = 0%nat.
Proof.
  revert st. induction evs as [|ev evs IH]; intros st Hq Hst; simpl.
  - split; [exact Hst|reflexivity].
  - simpl in Hq. apply andb_prop in Hq as (Hq1 & Hq2).
    destruct (capped_flush_registry_step ev st Hq1 Hst) as (Hst1 & Hc1).
    destruct (step ev st) as [st1 effs1]. simpl in *.
    specialize (IH st1 Hq2 Hst1).
    destruct (run evs st1) as [st2 effs2]. simpl in *.
    rewrite count_next_app. split; [tauto|lia].
Qed.

(** ['finish'] either calls [next] at once or leaves one continuation
    pending; a call without an error needs every promise handed out so
    far to be fulfilled. *)
Lemma capped_finish_step (st : Capped.session) :
  capped_flush_registry_ok st ->
  let r := step Capped.Finish st in
  let n0 := length (Capped.promises st) in
  capped_barriers_cover n0 r.1
  /\ (count_next r.2 + length (Capped.barriers r.1) = 1)%nat
  /\ (In (ENext None) r.2 ->
      forall h, (h < n0)%nat -> Capped.promises r.1 !! h = Some Fulfilled).
Proof.
  unfold capped_flush_registry_ok, capped_barriers_cover.
  intros (Hb & Hw). simpl. unfold Capped.on_finish.
  destruct (Capped.waitFlush st) as [hs|]; simpl in Hw.
  - pose proof (capped_run_barriers_spec [hs] st) as (Hc & HP & Hin).
    pose proof (capped_run_barriers_frame [hs] st) as (_ & _ & _ & Hp).
    rewrite Hb in Hc, HP. cbn [length Nat.add] in Hc.
    rewrite Hp. repeat split; [lia| |exact Hc|].
    + apply HP; [|constructor]. constructor; [|constructor].
      intros h Hh. rewrite Hw. apply in_seq. lia.
    + intros Hi h Hh. destruct (Hin Hi) as (b & [<-|[]] & Hf).
      apply (promise_all_fulfilled _ _ Hf). rewrite Hw. apply in_seq. lia.
  - pose proof (capped_handler_frame None st) as (_ & _ & _ & Hp & Hb' & _).
    rewrite Hp, Hb', Hb, capped_handler_effects.
    split; [split; [lia|constructor]|]. split; [reflexivity|].
    intros _ h Hh. symmetry in Hw. apply length_zero_iff_nil in Hw.
    rewrite length_seq in Hw. lia.
Qed.

(** After ['finish'], a quiet event calls [next] only by running a
    pending continuation, and a call without an error still needs the
    promises that continuation waits for. *)
Lemma capped_barriers_cover_step (n0 : nat) (ev : Capped.event) (st : Capped.session) :
  capped_quiet ev = true ->
  capped_barriers_cover n0 st ->
  let r := step ev st in
  capped_barriers_cover n0 r.1
  /\ (count_next r.2 + length (Capped.barriers r.1)
      = length (Capped.barriers st))%nat
  /\ (In (ENext None) r.2 ->
      forall h, (h < n0)%nat -> Capped.promises r.1 !! h = Some Fulfilled).
Proof.
  unfold capped_barriers_cover. intros Hq (Hn & Hcov).
  destruct (capped_quiet_step ev st Hq)
    as [(h & r & ->)|(Hc & Hb' & Hp)].
  - simpl. unfold Capped.on_settle.
    cbn [Capped.promises Capped.set_promises Capped.set_barriers Capped.barriers].
    match goal with |- context [Capped.run_barriers ext opts ?bs ?s] =>
      pose proof (capped_run_barriers_spec bs s) as (Hc & HP & Hin);
      pose proof (capped_run_barriers_frame bs s) as (_ & _ & _ & Hp) end.
    cbn [Capped.promises Capped.set_promises Capped.set_barriers
         Capped.barriers] in Hc, HP, Hin, Hp.
    rewrite Hp, length_settle. cbn [length] in Hc.
    repeat split; [exact Hn|apply HP; [exact Hcov|constructor]|lia|].
    intros Hi h' Hh. destruct (Hin Hi) as (b & Hb & Hf).
    apply (promise_all_fulfilled _ _ Hf).
    rewrite Forall_forall in Hcov. apply (Hcov b); [|exact Hh].
    apply list_elem_of_In. exact Hb.
  - simpl. rewrite Hb'. repeat split; [|exact Hcov|lia|].
    + destruct Hp as [(-> & _)|(fl & -> & _)]; [exact Hn|].
      rewrite length_app. lia.
    + intros Hi. apply in_next_count in Hi. lia.
Qed.

Lemma capped_barriers_cover_run (n0 : nat) (evs : list Capped.event)
    (st : Capped.session) :
  forallb capped_quiet evs = true ->
  capped_barriers_cover n0 st ->
  capped_barriers_cover n0 (run evs st).1
  /\ (count_next (run evs st).2 + length (Capped.barriers (run evs st).1)
      = length (Capped.barriers st))%nat.
Proof.
  revert st. induction evs as [|ev evs IH]; intros st Hq Hst; simpl.
  - split; [exact Hst|reflexivity].
  - simpl in Hq. apply andb_prop in Hq as (Hq1 & Hq2).
    destruct (capped_barriers_cover_step n0 ev st Hq1 Hst) as (Hst1 & Hc1 & _).
    destruct (step ev st) as [st1 effs1]. simpl in *.
    specialize (IH st1 Hq2 Hst1).
    destruct (run evs st1) as [st2 effs2]. simpl in *.
    rewrite count_next_app. split; [tauto|lia].
Qed.

Lemma capped_run_app_state (evs1 evs2 : list Capped.event) (st : Capped.session) :
  (run (evs1 ++ evs2) st).1 = (run evs2 (run evs1 st).1).1.
Proof.
  rewrite capped_run_app. destruct (run evs1 st) as [st1 effs1]. simpl.
  destruct (run evs2 st1). reflexivity.
Qed.

Lemma capped_run_app_effects (evs1 evs2 : list Capped.event) (st : Capped.session) :
  (run (evs1 ++ evs2) st).2 = (run evs1 st).2 ++ (run evs2 (run evs1 st).1).2.
Proof.
  rewrite capped_run_app. destruct (run evs1 st) as [st1 effs1]. simpl.
  destruct (run evs2 st1). reflexivity.
Qed.

Lemma capped_run_cons (ev : Capped.event) (evs : list Capped.event)
    (st : Capped.session) :
  (run (ev :: evs) st).1 = (run evs (step ev st).1).1
  /\ (run (ev :: evs) st).2 = (step ev st).2 ++ (run evs (step ev st).1).2.
Proof.
  simpl. destruct (step ev st) as [st1 effs1]. simpl.
  destruct (run evs st1). split; reflexivity.
Qed.

Lemma capped_flush_registry_init : capped_flush_registry_ok Capped.init.
Proof. split; reflexivity. Qed.

(** With one ['finish'] and no ['error'] of a file part or of the
    decoder, [next] is called at most once, and a call without an error
    finds every promise handed out before ['finish'] fulfilled. *)
Lemma capped_finish_once (pre post : list Capped.event) :
  forallb capped_quiet pre = true ->
  forallb capped_quiet post = true ->
  let evs := pre ++ Capped.Finish :: post in
  let n0 := length (Capped.promises (run pre Capped.init).1) in
  (count_next (run evs Capped.init).2 <= 1)%nat
  /\ forall (done : list Capped.event) (ev : Capped.event) (rest : list Capped.event),
      evs = done ++ ev :: rest ->
      let s := (run done Capped.init).1 in
      In (ENext None) (step ev s).2 ->
      forall h, (h < n0)%nat ->
        Capped.promises (step ev s).1 !! h = Some Fulfilled.
Proof.
  intros Hpre Hpost evs n0. subst evs n0.
  destruct (capped_flush_registry_run pre Capped.init Hpre capped_flush_registry_init)
    as (Hreg & Hc0).
  destruct (capped_finish_step _ Hreg) as (Hcov & Hc1 & Hfin).
  split.
  - rewrite capped_run_app_effects, count_next_app, Hc0.
    destruct (capped_run_cons Capped.Finish post (run pre Capped.init).1) as (_ & ->).
    rewrite count_next_app.
    destruct (capped_barriers_cover_run _ post _ Hpost Hcov) as (_ & Hc2).
    lia.
  - intros done ev rest Heq s. subst s.
    apply split_around in Heq as [(l & ->)|[(-> & -> & ->)|(l & -> & ->)]].
    + (* before finish: no call at all *)
      rewrite forallb_app in Hpre. apply andb_prop in Hpre as (Hd & Hev).
      simpl in Hev. apply andb_prop in Hev as (Hev & _).
      destruct (capped_flush_registry_run done Capped.init Hd
                  capped_flush_registry_init) as (Hreg' & _).
      destruct (capped_flush_registry_step ev _ Hev Hreg') as (_ & Hc).
      intros Hin. apply in_next_count in Hin. lia.
    + (* the finish event itself *) exact Hfin.
    + (* after finish *)
      rewrite forallb_app in Hpost. apply andb_prop in Hpost as (Hl & Hev).
      simpl in Hev. apply andb_prop in Hev as (Hev & _).
      rewrite capped_run_app_state.
      destruct (capped_run_cons Capped.Finish l (run pre Capped.init).1) as (-> & _).
      destruct (capped_barriers_cover_run _ l _ Hl Hcov) as (Hcov' & _).
      destruct (capped_barriers_cover_step _ ev _ Hev Hcov') as (_ & _ & Hful).
      exact Hful.
Qed.

(** ** A part cut at the per-file limit *)

(** Chunks of one part that stay within the aggregate cap all reach its
    sink, and nothing else changes. *)
Lemma capped_run_chunks (chunks : list chunk) (k : nat) (st : Capped.session)
    (p : part) :
  Capped.parts st !! k = Some p ->
  js_gt (Some (Capped.totalSize st + chunks_length chunks))
    (limits_totalSize opts) = false ->
  let r := run (map (Capped.FileData k) chunks) st in
  r.2 = map (ESinkWrite k) chunks
  /\ Capped.files r.1 = Capped.files st
  /\ exists p',
      Capped.parts r.1 !! k = Some p'
      /\ p_field p' = p_field p /\ p_filename p' = p_filename p
      /\ p_encoding p' = p_encoding p /\ p_mime p' = p_mime p
      /\ getFileSize (p_sink p') = getFileSize (p_sink p) + chunks_length chunks.
Proof.
  revert st p. induction chunks as [|c chunks IH]; intros st p Hk Hgt.
  - simpl. split; [reflexivity|]. split; [reflexivity|].
    exists p. repeat split; [exact Hk|lia].
  - pose proof (chunk_length_nonneg c) as Hc.
    pose proof (chunks_length_nonneg chunks) as Hcs.
    change (chunks_length (c :: chunks))
      with (chunk_length c + chunks_length chunks) in *.
    assert (Hgt1 : js_gt (Some (Capped.totalSize st + chunk_length c))
                     (limits_totalSize opts) = false).
    { apply (js_gt_mono _
               (Capped.totalSize st + (chunk_length c + chunks_length chunks)));
        [lia|exact Hgt]. }
    assert (Hstep : step (Capped.FileData k c) st
      = (Capped.set_parts
           (alter (with_sink (sink_write c)) k (Capped.parts st))
           (Capped.set_totalSize (Capped.totalSize st + chunk_length c) st),
         [ESinkWrite k c])).
    { simpl. rewrite Hk. unfold Capped.on_data.
      cbn [Capped.totalSize Capped.set_totalSize]. rewrite Hgt1. reflexivity. }
    cbv zeta. change (map (Capped.FileData k) (c :: chunks))
      with (Capped.FileData k c :: map (Capped.FileData k) chunks).
    destruct (capped_run_cons (Capped.FileData k c)
                (map (Capped.FileData k) chunks) st) as (-> & ->).
    rewrite Hstep. cbn [fst snd].
    match goal with |- context [run _ ?s] =>
      specialize (IH s (with_sink (sink_write c) p)) end.
    cbn [Capped.parts Capped.set_parts Capped.set_totalSize Capped.totalSize
         Capped.files] in IH.
    destruct IH as (He & Hf & p' & Hp' & H1 & H2 & H3 & H4 & Hsz).
    { rewrite list_lookup_alter_eq, Hk. reflexivity. }
    { rewrite <- Z.add_assoc. exact Hgt. }
    split; [rewrite He; reflexivity|]. split; [exact Hf|].
    exists p'. repeat split; try assumption.
    rewrite Hsz. simpl. rewrite getFileSize_write. lia.
Qed.

(** With no limit handler configured and [abortOnLimit] off, the
    ['limit'] listener does nothing.  When the chunks delivered for a new
    part stay within the aggregate cap and the part ends with
    [file.truncated] set, the ['end'] listener adds an artifact with
    [truncated = true] whose size is the bytes delivered; the only
    actions are the creation of the sink and the writes of the chunks. *)
Lemma capped_delivered_part_yields_artifact
    (st : Capped.session) (field name encoding mime : string)
    (chunks : list chunk) (flush : pstate) (cap : Z) :
  limitHandler opts = NotAFunction ->
  abortOnLimit opts = false ->
  chunks_length chunks = cap ->
  js_gt (Some (Capped.totalSize st + cap)) (limits_totalSize opts) = false ->
  let k := length (Capped.parts st) in
  let evs :=
    Capped.File field name encoding mime
    :: map (Capped.FileData k) chunks
    ++ [Capped.FileLimit k; Capped.FileEnd k true flush] in
  (forall st' j, step (Capped.FileLimit j) st' = (st', []))
  /\ (run evs st).2 = ENewSink k :: map (ESinkWrite k) chunks
  /\ exists (a : artifact) (m : gmap string (entry artifact)),
      Capped.files (run evs st).1 = Some m
      /\ (m !! field = Some (Single a)
          \/ exists l, m !! field = Some (Many (l ++ [a])))
      /\ a_truncated a = true
      /\ a_size a = cap
      /\ a_name a = parseFileName ext opts name
      /\ a_encoding a = encoding
      /\ a_mimetype a = mime.
Proof.
  intros Hlh Hab Hcap Hgt k evs.
  assert (Hlimit : forall st' j, step (Capped.FileLimit j) st' = (st', [])).
  { intros st' j. simpl. destruct (Capped.parts st' !! j); [|reflexivity].
    unfold Capped.on_limit. rewrite Hlh, Hab. reflexivity. }
  split; [exact Hlimit|]. subst evs.
  destruct (capped_run_cons (Capped.File field name encoding mime)
              (map (Capped.FileData k) chunks
               ++ [Capped.FileLimit k; Capped.FileEnd k true flush]) st)
    as (-> & ->).
  rewrite capped_run_app_state, capped_run_app_effects.
  set (st1 := (step (Capped.File field name encoding mime) st).1).
  set (p0 := {| p_field := field; p_filename := parseFileName ext opts name;
                p_encoding := encoding; p_mime := mime; p_sink := new_sink;
                p_timer := None |}).
  assert (Hk : Capped.parts st1 !! k = Some p0).
  { subst st1. simpl. apply list_lookup_middle. reflexivity. }
  destruct (capped_run_chunks chunks k st1 p0 Hk)
    as (He & Hf & p' & Hp' & H1 & H2 & H3 & H4 & Hsz).
  { subst st1. simpl. rewrite Hcap. exact Hgt. }
  set (st2 := (run (map (Capped.FileData k) chunks) st1).1) in *.
  destruct (capped_run_cons (Capped.FileLimit k)
              [Capped.FileEnd k true flush] st2) as (-> & ->).
  rewrite Hlimit. cbn [fst snd].
  destruct (capped_run_cons (Capped.FileEnd k true flush) [] st2) as (-> & ->).
  simpl. rewrite Hp'. simpl. rewrite He.
  split; [rewrite !app_nil_r; reflexivity|].
  rewrite Hf. subst st1. simpl.
  assert (H1' : p_field p' = field) by (rewrite H1; reflexivity).
  match goal with |- context [buildFields ?i ?f ?a] =>
    destruct (buildFields_adds i f a) as (m & Hm & Hlook); exists a, m end.
  split; [exact Hm|]. split; [rewrite <- H1'; exact Hlook|].
  simpl. rewrite Hsz, H2, H3, H4. subst p0. simpl.
  repeat split. unfold getFileSize. simpl. lia.
Qed.

End CappedFacts.

(** ** The revision with the upload timer *)

Section TimedFacts.

Variable ext : collaborators.
Variable opts : options.

Local Abbreviation step := (Timed.step ext opts).
Local Abbreviation run := (Timed.run ext opts).

Lemma timed_run_invariant (P : Timed.session -> Prop) :
  (forall ev st, P st -> P (step ev st).1) ->
  forall evs st, P st -> P (run evs st).1.
Proof.
  intros Hstep evs. induction evs as [|ev evs IH]; intros st HP; simpl; [exact HP|].
  specialize (Hstep ev st HP).
  destruct (step ev st) as [st1 effs1]. simpl in Hstep.
  specialize (IH st1 Hstep).
  destruct (run evs st1) as [st2 effs2]. exact IH.
Qed.

Lemma timed_clearUploadTimer_frame (k : nat) (st : Timed.session) :
  Timed.parts (Timed.clearUploadTimer k st).1 = Timed.parts st
  /\ Timed.cleanups (Timed.clearUploadTimer k st).1 = Timed.cleanups st.
Proof.
  unfold Timed.clearUploadTimer.
  destruct (Timed.parts st !! k) as [p|]; [|split; reflexivity].
  destruct (p_timer p); split; reflexivity.
Qed.

Lemma timed_setUploadTimer_frame (k : nat) (st : Timed.session) :
  length (Timed.parts (Timed.setUploadTimer k st).1) = length (Timed.parts st)
  /\ Timed.cleanups (Timed.setUploadTimer k st).1 = Timed.cleanups st.
Proof.
  unfold Timed.setUploadTimer.
  destruct (timed_clearUploadTimer_frame k st) as (Hp & Hc).
  destruct (Timed.clearUploadTimer k st) as [st1 effs]. simpl in *.
  rewrite length_alter, Hp, Hc. split; reflexivity.
Qed.

Lemma timed_registry_step (ev : Timed.event) (st : Timed.session) :
  timed_registry_ok st -> timed_registry_ok (step ev st).1.
Proof.
  unfold timed_registry_ok. intros Hst.
  destruct ev as [|f v|f n e m|k|k data|k tr|k err| | |err|t]; simpl;
    try (destruct (Timed.parts st !! k) as [p|]; [|exact Hst]).
  - (* aborted *) simpl. rewrite length_release_parts. exact Hst.
  - (* field *) exact Hst.
  - (* file *) unfold Timed.on_file.
    match goal with |- context [Timed.setUploadTimer ?j ?s] =>
      destruct (timed_setUploadTimer_frame j s) as (Hp & Hc);
      destruct (Timed.setUploadTimer j s) as [st2 effs] end.
    simpl in *. rewrite Hp, Hc, length_app, Nat.add_1_r, seq_S, Hst. reflexivity.
  - (* limit *) unfold Timed.on_limit.
    destruct (isFunc (limitHandler opts)); [|destruct (abortOnLimit opts)];
      simpl; rewrite ?length_alter; exact Hst.
  - (* data *) simpl. rewrite length_alter. exact Hst.
  - (* end *) exact Hst.
  - (* error *) simpl. rewrite length_alter. exact Hst.
  - (* filesLimit *) unfold Timed.on_filesLimit.
    destruct (numFilesLimitHandler opts); exact Hst.
  - (* finish *) unfold Timed.on_finish. destruct (parseNested opts); exact Hst.
  - (* busboy error *) exact Hst.
  - (* timeout *) unfold Timed.on_timeout.
    destruct (Timed.timers st !! t) as [tm|]; [|exact Hst].
    destruct (Timed.t_state tm); simpl; rewrite ?length_alter; exact Hst.
Qed.

Lemma timed_registry_run (evs : list Timed.event) :
  timed_registry_ok (run evs Timed.init).1.
Proof.
  apply timed_run_invariant; [apply timed_registry_step|reflexivity].
Qed.

(** C7: the timer of a part is armed once, when the part is created, and
    no listener of the part ever clears it: ['data'] does not rearm it,
    and ['end'], ['error'], ['limit'] and the request's ['aborted'] leave
    the timers as they are.  So the timer of a part that has ended is
    still pending, and when its delay has passed it runs the part's
    cleanup. *)
Theorem upload_timer_survives_part_end :
  (forall st k tr, Timed.timers (step (Timed.FileEnd k tr) st).1 = Timed.timers st)
  /\ (forall st k err,
        Timed.timers (step (Timed.FileError k err) st).1 = Timed.timers st)
  /\ (forall st k, Timed.timers (step (Timed.FileLimit k) st).1 = Timed.timers st)
  /\ (forall st k data,
        Timed.timers (step (Timed.FileData k data) st).1 = Timed.timers st)
  /\ (forall st, Timed.timers (step Timed.Aborted st).1 = Timed.timers st)
  /\ (forall field name encoding mime tr,
        let r := run [Timed.File field name encoding mime;
                      Timed.FileEnd 0 tr; Timed.Timeout 0] Timed.init in
        r.2 = [ENewSink 0; ESetTimeout 0; ECleanup 0]
        /\ Timed.timers r.1 = [{| Timed.t_state := Timed.Fired; Timed.t_part := 0 |}]).
Proof.
  split; [|split; [|split; [|split; [|split]]]].
  - intros st k tr. simpl. destruct (Timed.parts st !! k); reflexivity.
  - intros st k err. simpl. destruct (Timed.parts st !! k); reflexivity.
  - intros st k. simpl. destruct (Timed.parts st !! k); [|reflexivity].
    unfold Timed.on_limit.
    destruct (isFunc (limitHandler opts)); [|destruct (abortOnLimit opts)];
      reflexivity.
  - intros st k data. simpl. destruct (Timed.parts st !! k); reflexivity.
  - intros st. reflexivity.
  - intros field name encoding mime tr. split; reflexivity.
Qed.

End TimedFacts.

(** ** Abort and the per-file limit, in both revisions *)

Section SessionFacts.

Variable ext : collaborators.
Variable opts : options.

Lemma count_cleanup_registry (n : nat) :
  Forall (fun k => count_cleanup k (map ECleanup (seq 0 n)) = 1%nat) (seq 0 n).
Proof.
  apply Forall_forall. intros k Hk. apply list_elem_of_In, in_seq in Hk.
  rewrite count_cleanup_seq. case_decide; [reflexivity|lia].
Qed.

(** C5 (amended): when a part passes the per-file limit, no limit handler
    is configured and [abortOnLimit] is set, the ['limit'] listener
    unpipes the request and closes the connection with status code 413,
    which the call site fixes (the 400 of [closeConnection] only stands
    in for a missing code), and with [options.responseOnLimit] as the
    reason, "Bad Request" when that is not set.  Then cleanup runs: every
    registered cleanup in the revision with the aggregate cap, the
    cleanup of that part alone in the revision with the upload timer. *)
Theorem limit_abort_closes_with_413 :
  limitHandler opts = NotAFunction ->
  abortOnLimit opts = true ->
  (forall (st : Capped.session) (k : nat) (p : part),
      Capped.parts st !! k = Some p ->
      Capped.step ext opts (Capped.FileLimit k) st
      = (Capped.set_parts
           (release_parts (Capped.cleanups st) (Capped.parts st)) st,
         [EUnpipe; EWriteHead 413;
          EResEnd (reason_or_default (responseOnLimit opts))]
         ++ map ECleanup (Capped.cleanups st)))
  /\ (forall (st : Timed.session) (k : nat) (p : part),
        Timed.parts st !! k = Some p ->
        Timed.step ext opts (Timed.FileLimit k) st
        = (Timed.set_parts (release_parts [k] (Timed.parts st)) st,
           [EUnpipe; EWriteHead 413;
            EResEnd (reason_or_default (responseOnLimit opts)); ECleanup k]))
  /\ reason_or_default None = "Bad Request"
  /\ closeConnection None None
     = [EUnpipe; EWriteHead 400; EResEnd "Bad Request"].
Proof.
  intros Hlh Hab. split; [|split; [|split; reflexivity]].
  - intros st k p Hk. simpl. rewrite Hk. unfold Capped.on_limit.
    rewrite Hlh, Hab. reflexivity.
  - intros st k p Hk. simpl. rewrite Hk. unfold Timed.on_limit.
    rewrite Hlh, Hab. reflexivity.
Qed.

(** C8: on the request's ['aborted'] event, in any state a session can
    reach, the listener calls every registered cleanup exactly once and
    does nothing else; in particular it does not call [next].  This holds
    in both revisions. *)
Theorem abort_runs_each_cleanup_once :
  (forall evs : list Capped.event,
      let st := (Capped.run ext opts evs Capped.init).1 in
      let r := Capped.step ext opts Capped.Aborted st in
      r.2 = map ECleanup (Capped.cleanups st)
      /\ Forall (fun k => count_cleanup k r.2 = 1%nat) (Capped.cleanups st)
      /\ count_next r.2 = 0%nat)
  /\ (forall evs : list Timed.event,
        let st := (Timed.run ext opts evs Timed.init).1 in
        let r := Timed.step ext opts Timed.Aborted st in
        r.2 = map ECleanup (Timed.cleanups st)
        /\ Forall (fun k => count_cleanup k r.2 = 1%nat) (Timed.cleanups st)
        /\ count_next r.2 = 0%nat).
Proof.
  split; intros evs st r; subst r; simpl.
  - split; [reflexivity|]. split; [|apply count_next_cleanups].
    pose proof (capped_registry_run ext opts evs) as Hreg.
    unfold capped_registry_ok in Hreg. fold st in Hreg. rewrite Hreg.
    apply count_cleanup_registry.
  - split; [reflexivity|]. split; [|apply count_next_cleanups].
    pose proof (timed_registry_run ext opts evs) as Hreg.
    unfold timed_registry_ok in Hreg. fold st in Hreg. rewrite Hreg.
    apply count_cleanup_registry.
Qed.

End SessionFacts.

(** ** The theorems on sample sessions *)

(** C1, as stated, fails: an ['error'] of a file part calls [next], and
    the ['finish'] that follows calls it again. *)
Lemma file_error_then_finish_calls_next_twice :
  let r := Capped.process sample_ext (sample_options (Some 5) (Function 0) false)
             (Some 3)
             [Capped.File "doc" "a.txt" "7bit" "text/plain";
              Capped.FileError 0 "boom"; Capped.Finish] in
  r.2 = [ENewBusboy; EPipe; ENewSink 0; ECleanup 0; ENext None; ENext None]
  /\ ~ (count_next r.2 <= 1)%nat.
Proof. split; [reflexivity|]. intros H. vm_compute in H. lia. Qed.

(** C2, as stated, fails: a chunk of six bytes against a cap of five is
    counted, and it is not passed to the sink. *)
Lemma overflowing_chunk_is_counted_not_written :
  let r := Capped.run sample_ext (sample_options (Some 5) (Function 0) false)
             [Capped.File "doc" "a.txt" "7bit" "text/plain";
              Capped.FileData 0 (zeros 6)] Capped.init in
  Capped.totalSize r.1 = 6 /\ written r.2 = 0
  /\ Capped.totalSize r.1 <> written r.2.
Proof. vm_compute. repeat split; discriminate. Qed.

Lemma total_size_counts_handled_chunks_witness :
  let r := Capped.run sample_ext (sample_options (Some 5) (Function 0) false)
             sample_upload Capped.init in
  js_gt (Some (Capped.totalSize r.1)) (Some 5) = false
  /\ Capped.totalSize r.1 = written r.2.
Proof.
  split; [reflexivity|].
  apply (proj2 (total_size_counts_handled_chunks sample_ext
                  (sample_options (Some 5) (Function 0) false)) sample_upload).
  reflexivity.
Defined.

Lemma aggregate_check_precedes_sink_write_witness :
  let opts := sample_options (Some 5) (Function 7) false in
  let st := (Capped.run sample_ext opts sample_upload Capped.init).1 in
  limits_totalSize opts = Some 5
  /\ Capped.parts st !! 0%nat
     = Some {| p_field := "doc"; p_filename := "a.txt"; p_encoding := "7bit";
               p_mime := "text/plain";
               p_sink := {| received := [zeros 3]; released := false |};
               p_timer := None |}
  /\ 5 < Capped.totalSize st + chunk_length (zeros 4)
  /\ (Capped.step sample_ext opts (Capped.FileData 0 (zeros 4)) st).2
     = [EUnpipe; ECleanup 0; ELimitHandler 7].
Proof.
  split; [reflexivity|]. split; [reflexivity|]. split; [reflexivity|].
  pose proof (proj1 (aggregate_check_precedes_sink_write sample_ext
                       (sample_options (Some 5) (Function 7) false))
                (Capped.run sample_ext (sample_options (Some 5) (Function 7) false)
                   sample_upload Capped.init).1
                0%nat _ (zeros 4) 5 eq_refl eq_refl eq_refl) as [Hstep _].
  rewrite Hstep. reflexivity.
Defined.

Lemma fast_reject_before_decoder_witness :
  let opts := sample_options (Some 5) (Function 7) false in
  limits_totalSize opts = Some 5
  /\ limitHandler opts = Function 7
  /\ 5 < 6
  /\ Capped.process sample_ext opts (Some 6) sample_upload
     = (None, [ELimitHandler 7]).
Proof.
  split; [reflexivity|]. split; [reflexivity|]. split; [reflexivity|].
  apply (fast_reject_before_decoder sample_ext
           (sample_options (Some 5) (Function 7) false) 6 5 7 sample_upload);
    reflexivity.
Defined.

(** C5, as stated, fails: the status code sent is 413, not 400. *)
Lemma limit_abort_status_is_not_400 :
  let opts := sample_options None NotAFunction true in
  let r := Capped.run sample_ext opts
             [Capped.File "doc" "a.txt" "7bit" "text/plain"; Capped.FileLimit 0]
             Capped.init in
  r.2 = [ENewSink 0; EUnpipe; EWriteHead 413; EResEnd "Bad Request"; ECleanup 0]
  /\ ~ In (EWriteHead 400) r.2.
Proof.
  split; [reflexivity|]. vm_compute.
  intros [H|[H|[H|[H|[H|[]]]]]]; discriminate.
Qed.

Lemma limit_abort_closes_with_413_witness :
  let opts := sample_options None NotAFunction true in
  let st := (Capped.run sample_ext opts sample_upload Capped.init).1 in
  limitHandler opts = NotAFunction
  /\ abortOnLimit opts = true
  /\ (Capped.step sample_ext opts (Capped.FileLimit 0) st).2
     = [EUnpipe; EWriteHead 413; EResEnd "Bad Request"; ECleanup 0].
Proof.
  split; [reflexivity|]. split; [reflexivity|].
  pose proof (proj1 (limit_abort_closes_with_413 sample_ext
                       (sample_options None NotAFunction true) eq_refl eq_refl)
                (Capped.run sample_ext (sample_options None NotAFunction true)
                   sample_upload Capped.init).1
                0%nat _ eq_refl) as Hstep.
  rewrite Hstep. reflexivity.
Defined.

Lemma unguarded_limit_handler_calls_witness :
  let opts := sample_options (Some 5) NotAFunction false in
  let st := (Capped.run sample_ext opts sample_upload Capped.init).1 in
  limitHandler opts = NotAFunction
  /\ Capped.processMultipart opts (Some 6) = Capped.Returned [EThrowTypeError]
  /\ (Capped.step sample_ext opts (Capped.FileData 0 (zeros 4)) st).2
     = [EUnpipe; ECleanup 0; EThrowTypeError]
  /\ (Capped.step sample_ext opts (Capped.FileLimit 0) st).2 = [].
Proof.
  split; [reflexivity|].
  destruct (unguarded_limit_handler_calls sample_ext
              (sample_options (Some 5) NotAFunction false) eq_refl)
    as (Hfast & Hdata & Hlimit).
  split; [apply (Hfast 6 5); reflexivity|].
  split.
  - rewrite (Hdata (Capped.run sample_ext
                      (sample_options (Some 5) NotAFunction false)
                      sample_upload Capped.init).1
               0%nat _ (zeros 4) 5 eq_refl eq_refl eq_refl).
    reflexivity.
  - rewrite (Hlimit (Capped.run sample_ext
                       (sample_options (Some 5) NotAFunction false)
                       sample_upload Capped.init).1
               0%nat _ eq_refl).
    reflexivity.
Defined.

Lemma caps_are_strict_witness :
  let opts := sample_options (Some 5) (Function 7) false in
  limits_totalSize opts = Some 5
  /\ Capped.processMultipart opts (Some 5)
     = Capped.Started Capped.init [ENewBusboy; EPipe].
Proof.
  split; [reflexivity|].
  apply (proj1 (caps_are_strict sample_ext
                  (sample_options (Some 5) (Function 7) false) 5 eq_refl)).
Defined.

(** ** More on the aggregate cap *)

Section CappedCounterFacts.

Variable ext : collaborators.
Variable opts : options.

Local Abbreviation step := (Capped.step ext opts).
Local Abbreviation run := (Capped.run ext opts).

Lemma js_gt_mono_true (a b : Z) (l : option Z) :
  a <= b -> js_gt (Some a) l = true -> js_gt (Some b) l = true.
Proof.
  intros Hle. unfold js_gt. destruct l as [L|]; [|discriminate].
  destruct (Z.gtb_spec a L); [|discriminate].
  destruct (Z.gtb_spec b L); [reflexivity|lia].
Qed.

(** Once the counter is over the cap, an event writes nothing and leaves
    the counter over the cap. *)
Lemma capped_overflow_step (ev : Capped.event) (st : Capped.session) :
  js_gt (Some (Capped.totalSize st)) (limits_totalSize opts) = true ->
  js_gt (Some (Capped.totalSize (step ev st).1)) (limits_totalSize opts) = true
  /\ written (step ev st).2 = 0.
Proof.
  intros Hover.
  destruct (capped_step_measure ext opts ev st)
    as [(k & data & p & _ & _ & Ht & [(Hgt & _ & Hw)|(Hgt & _ & _)])
       |(_ & Ht & _ & Hw)].
  - rewrite Ht, Hgt. split; [reflexivity|exact Hw].
  - pose proof (chunk_length_nonneg data) as Hlen.
    rewrite (js_gt_mono_true (Capped.totalSize st)
               (Capped.totalSize st + chunk_length data) _ ltac:(lia) Hover)
      in Hgt.
    discriminate.
  - rewrite Ht. split; [exact Hover|exact Hw].
Qed.

(** X1: the overflow of the aggregate cap is final.  Once the counter has
    passed [limits.totalSize], no later event writes to a sink; the
    counter stays over the cap; and every later chunk of an existing part
    again unpipes the request, runs all cleanups and calls
    [options.limitHandler], so the limit handler can be called more than
    once in a session. *)
Theorem overflow_is_final (st : Capped.session) (evs : list Capped.event) :
  js_gt (Some (Capped.totalSize st)) (limits_totalSize opts) = true ->
  written (run evs st).2 = 0
  /\ js_gt (Some (Capped.totalSize (run evs st).1)) (limits_totalSize opts) = true
  /\ forall (k : nat) (p : part) (data : chunk),
      Capped.parts (run evs st).1 !! k = Some p ->
      (step (Capped.FileData k data) (run evs st).1).2
      = EUnpipe :: map ECleanup (Capped.cleanups (run evs st).1)
          ++ [call_limitHandler opts].
Proof.
  intros Hover.
  assert (Hrun : written (run evs st).2 = 0
                 /\ js_gt (Some (Capped.totalSize (run evs st).1))
                      (limits_totalSize opts) = true).
  { revert st Hover. induction evs as [|ev evs IH]; intros st Hover; simpl.
    - split; [reflexivity|exact Hover].
    - destruct (capped_overflow_step ev st Hover) as (Hover1 & Hw1).
      destruct (step ev st) as [st1 effs1]. simpl in *.
      specialize (IH st1 Hover1).
      destruct (run evs st1) as [st2 effs2]. simpl in *.
      rewrite written_app. split; [lia|tauto]. }
  destruct Hrun as (Hw & Hover'). split; [exact Hw|]. split; [exact Hover'|].
  intros k p data Hk. simpl. rewrite Hk. unfold Capped.on_data.
  cbn [Capped.totalSize Capped.set_totalSize].
  pose proof (chunk_length_nonneg data) as Hlen.
  rewrite (js_gt_mono_true (Capped.totalSize (run evs st).1)
             (Capped.totalSize (run evs st).1 + chunk_length data) _
             ltac:(lia) Hover').
  reflexivity.
Qed.

End CappedCounterFacts.

(** ** More on the flush barrier *)

Section CappedBarrierFacts.

Variable ext : collaborators.
Variable opts : options.

Local Abbreviation step := (Capped.step ext opts).
Local Abbreviation run := (Capped.run ext opts).

Lemma first_rejection_app (ps qs : list pstate) (hs : list nat) :
  (forall h, In h hs -> (h < length ps)%nat) ->
  first_rejection (ps ++ qs) hs = first_rejection ps hs.
Proof.
  induction hs as [|h hs IH]; intros Hlt; simpl; [reflexivity|].
  rewrite lookup_app_l by (apply Hlt; left; reflexivity).
  rewrite IH by (intros h' Hh'; apply Hlt; right; exact Hh').
  reflexivity.
Qed.

Lemma promise_all_app (ps qs : list pstate) (hs : list nat) :
  (forall h, In h hs -> (h < length ps)%nat) ->
  promise_all (ps ++ qs) hs = promise_all ps hs.
Proof.
  intros Hlt. unfold promise_all. rewrite first_rejection_app by exact Hlt.
  destruct (first_rejection ps hs); [reflexivity|].
  replace (forallb (is_fulfilled (ps ++ qs)) hs)
    with (forallb (is_fulfilled ps) hs); [reflexivity|].
  induction hs as [|h hs IH]; simpl; [reflexivity|].
  rewrite IH by (intros h' Hh'; apply Hlt; right; exact Hh').
  unfold is_fulfilled. rewrite lookup_app_l by (apply Hlt; left; reflexivity).
  reflexivity.
Qed.

Lemma first_rejection_none (ps : list pstate) (hs : list nat) :
  first_rejection ps hs = None ->
  forall h e, In h hs -> ps !! h <> Some (Rejected e).
Proof.
  induction hs as [|h hs IH]; simpl; intros Hnone h' e Hin; [contradiction|].
  destruct Hin as [<-|Hin].
  - destruct (ps !! h) as [[| |e']|]; congruence.
  - destruct (ps !! h) as [[| |e']|]; try discriminate; apply IH; assumption.
Qed.

Lemma first_rejection_some (ps : list pstate) (hs : list nat) (e : error) :
  first_rejection ps hs = Some e -> In (Rejected e) ps.
Proof.
  induction hs as [|h hs IH]; simpl; [discriminate|].
  destruct (ps !! h) as [[| |e']|] eqn:Hh; try exact IH.
  intros [= <-]. apply list_elem_of_In, list_elem_of_lookup. exists h. exact Hh.
Qed.

(** A [Promise.all] that has not settled waits for a promise that is
    still pending. *)
Lemma promise_all_pending (ps : list pstate) (hs : list nat) :
  promise_all ps hs = AllPending ->
  (forall h, In h hs -> (h < length ps)%nat) ->
  exists h, In h hs /\ ps !! h = Some Pending.
Proof.
  unfold promise_all. destruct (first_rejection ps hs) eqn:Hrej; [discriminate|].
  destruct (forallb (is_fulfilled ps) hs) eqn:Hall; [discriminate|].
  intros _ Hlt.
  assert (Hex : existsb (fun h => negb (is_fulfilled ps h)) hs = true).
  { clear Hrej Hlt. induction hs as [|h hs IH]; simpl in *; [discriminate|].
    destruct (is_fulfilled ps h); simpl in *; [apply IH; exact Hall|reflexivity]. }
  apply existsb_exists in Hex as (h & Hin & Hnf). exists h. split; [exact Hin|].
  pose proof (first_rejection_none _ _ Hrej h) as Hnr.
  specialize (Hlt h Hin). apply lookup_lt_is_Some_2 in Hlt as (x & Hx).
  unfold is_fulfilled in Hnf. rewrite Hx in Hnf.
  destruct x as [| |e]; [exact Hx|discriminate|].
  exfalso. apply (Hnr e Hin). exact Hx.
Qed.

(** The continuations that stay pending are those whose [Promise.all]
    has not settled. *)
Lemma capped_run_barriers_kept (bs : list (list nat)) (st : Capped.session) :
  Capped.barriers (Capped.run_barriers ext opts bs st).1
  = Capped.barriers st
    ++ List.filter (fun b => all_pending (promise_all (Capped.promises st) b)) bs.
Proof.
  revert st. induction bs as [|hs bs IH]; intros st; simpl.
  - rewrite app_nil_r. reflexivity.
  - destruct (promise_all (Capped.promises st) hs) as [| |e] eqn:Hall.
    + specialize (IH (Capped.set_barriers (Capped.barriers st ++ [hs]) st)).
      destruct (Capped.run_barriers ext opts bs _) as [st2 effs2].
      simpl in *. rewrite IH, <- app_assoc. reflexivity.
    + unfold Capped.on_all_fulfilled.
      pose proof (capped_handler_frame ext opts None (Capped.set_waitFlush None st))
        as (_ & _ & _ & Hp & Hb & _).
      destruct (Capped.handler ext opts None _) as [st1 effs1].
      specialize (IH st1).
      destruct (Capped.run_barriers ext opts bs st1) as [st2 effs2].
      simpl in *. rewrite IH, Hp, Hb. reflexivity.
    + unfold Capped.on_all_rejected.
      pose proof (capped_handler_frame ext opts (Some e)
                    (Capped.set_waitFlush None st))
        as (_ & _ & _ & Hp & Hb & _).
      destruct (Capped.handler ext opts (Some e) _) as [st1 effs1].
      specialize (IH st1).
      destruct (Capped.run_barriers ext opts bs st1) as [st2 effs2].
      simpl in *. rewrite IH, Hp, Hb. reflexivity.
Qed.

Lemma seq_below (n h : nat) : In h (seq 0 n) -> (h < n)%nat.
Proof. intros Hin. apply in_seq in Hin. lia. Qed.

Lemma capped_finish_pending (st : Capped.session) :
  capped_flush_registry_ok st ->
  capped_barriers_pending (length (Capped.promises st)) (step Capped.Finish st).1.
Proof.
  unfold capped_flush_registry_ok, capped_barriers_pending.
  intros (Hb & Hw). simpl. unfold Capped.on_finish.
  destruct (Capped.waitFlush st) as [hs|]; simpl in Hw.
  - pose proof (capped_run_barriers_frame ext opts [hs] st) as (_ & _ & _ & Hp).
    rewrite Hp, capped_run_barriers_kept, Hb. split; [lia|]. simpl.
    destruct (promise_all (Capped.promises st) hs) eqn:Hall; simpl;
      constructor; [|constructor].
    split; [exact Hw|]. exact Hall.
  - pose proof (capped_handler_frame ext opts None st) as (_ & _ & _ & Hp & Hb' & _).
    rewrite Hp, Hb', Hb. split; [lia|constructor].
Qed.

Lemma capped_pending_step (n0 : nat) (ev : Capped.event) (st : Capped.session) :
  capped_quiet ev = true ->
  capped_barriers_pending n0 st ->
  capped_barriers_pending n0 (step ev st).1.
Proof.
  unfold capped_barriers_pending. intros Hq (Hn & Hpend).
  destruct (capped_quiet_step ext opts ev st Hq)
    as [(h & r & ->)|(_ & Hb' & Hp)].
  - simpl. unfold Capped.on_settle.
    cbn [Capped.promises Capped.set_promises Capped.set_barriers Capped.barriers].
    match goal with |- context [Capped.run_barriers ext opts ?bs ?s] =>
      pose proof (capped_run_barriers_frame ext opts bs s) as (_ & _ & _ & Hp);
      rewrite Hp, (capped_run_barriers_kept bs s) end.
    cbn [Capped.promises Capped.set_promises Capped.set_barriers Capped.barriers].
    rewrite length_settle. split; [exact Hn|]. simpl.
    rewrite Forall_forall in Hpend. apply Forall_forall. intros b Hb.
    apply list_elem_of_In, filter_In in Hb as (Hb & Hall).
    split; [apply (Hpend b); apply list_elem_of_In; exact Hb|].
    destruct (promise_all _ b); [reflexivity|discriminate|discriminate].
  - rewrite Hb'. destruct Hp as [(-> & _)|(fl & -> & _)].
    + split; assumption.
    + rewrite length_app. split; [lia|].
      eapply Forall_impl; [exact Hpend|]. intros b (-> & Hall).
      split; [reflexivity|]. rewrite promise_all_app; [exact Hall|].
      intros h' Hin. apply seq_below in Hin. lia.
Qed.

Lemma capped_pending_run (n0 : nat) (evs : list Capped.event) (st : Capped.session) :
  forallb capped_quiet evs = true ->
  capped_barriers_pending n0 st ->
  capped_barriers_pending n0 (run evs st).1.
Proof.
  revert st. induction evs as [|ev evs IH]; intros st Hq Hst; simpl; [exact Hst|].
  simpl in Hq. apply andb_prop in Hq as (Hq1 & Hq2).
  pose proof (capped_pending_step n0 ev st Hq1 Hst) as Hst1.
  destruct (step ev st) as [st1 effs1]. simpl in *.
  specialize (IH st1 Hq2 Hst1).
  destruct (run evs st1) as [st2 effs2]. exact IH.
Qed.

(** X3: completion is signalled.  In a session with one ['finish'] and no
    ['error'] of a file part or of the decoder, once none of the promises
    handed out before ['finish'] is pending any more, the processor has
    called [next] exactly once and no continuation is left waiting. *)
Theorem settled_flush_completes_once (pre post : list Capped.event) :
  forallb capped_quiet pre = true ->
  forallb capped_quiet post = true ->
  let r := run (pre ++ Capped.Finish :: post) Capped.init in
  let n0 := length (Capped.promises (run pre Capped.init).1) in
  (forall h, (h < n0)%nat -> Capped.promises r.1 !! h <> Some Pending) ->
  count_next r.2 = 1%nat /\ Capped.barriers r.1 = [].
Proof.
  intros Hpre Hpost r n0 Hsettled. subst r n0.
  destruct (capped_flush_registry_run ext opts pre Capped.init Hpre
              (capped_flush_registry_init)) as (Hreg & Hc0).
  destruct (capped_finish_step ext opts _ Hreg) as (Hcov & Hc1 & _).
  pose proof (capped_finish_pending _ Hreg) as Hpend.
  destruct (capped_barriers_cover_run ext opts _ post _ Hpost Hcov) as (_ & Hc2).
  pose proof (capped_pending_run _ post _ Hpost Hpend) as (Hn & Hpend').
  rewrite capped_run_app_state in Hsettled.
  destruct (capped_run_cons ext opts Capped.Finish post
              (run pre Capped.init).1) as (Hs & He).
  rewrite Hs in Hsettled.
  assert (Hnil : Capped.barriers
                   (run post (step Capped.Finish (run pre Capped.init).1).1).1 = []).
  { destruct (Capped.barriers
                (run post (step Capped.Finish (run pre Capped.init).1).1).1)
      as [|b bs]; [reflexivity|].
    exfalso. inversion Hpend' as [|b' bs' (-> & Hall) _]; subst.
    apply promise_all_pending in Hall as (h & Hin & Hp).
    - apply seq_below in Hin. exact (Hsettled h Hin Hp).
    - intros h Hin. apply seq_below in Hin. lia. }
  rewrite capped_run_app_state, capped_run_app_effects, Hs, He.
  rewrite !count_next_app, Hc0. rewrite Hnil in Hc2. cbn [length] in Hc2.
  split; [lia|exact Hnil].
Qed.

End CappedBarrierFacts.

(** ** What the listeners never do *)

Lemma count_eff_app (f : effect -> bool) (l1 l2 : list effect) :
  count_eff f (l1 ++ l2) = (count_eff f l1 + count_eff f l2)%nat.
Proof. unfold count_eff. rewrite List.filter_app, length_app. reflexivity. Qed.

Lemma count_eff_cons (f : effect -> bool) (e : effect) (l : list effect) :
  count_eff f (e :: l) = ((if f e then 1 else 0) + count_eff f l)%nat.
Proof. unfold count_eff. simpl. destruct (f e); reflexivity. Qed.

Lemma count_eff_cleanups (f : effect -> bool) (ks : list nat) :
  (forall k, f (ECleanup k) = false) -> count_eff f (map ECleanup ks) = 0%nat.
Proof.
  intros Hf. induction ks as [|k ks IH]; [reflexivity|].
  simpl. rewrite count_eff_cons, Hf. exact IH.
Qed.

Lemma count_eff_zero (f : effect -> bool) (l : list effect) :
  (forall e, In e l -> f e = false) -> count_eff f l = 0%nat.
Proof.
  induction l as [|e l IH]; intros Hf; [reflexivity|].
  rewrite count_eff_cons, (Hf e) by (left; reflexivity).
  apply IH. intros e' He'. apply Hf. right. exact He'.
Qed.

Lemma count_eff_in (f : effect -> bool) (e : effect) (l : list effect) :
  f e = true -> In e l -> (1 <= count_eff f l)%nat.
Proof.
  intros Hf Hin. apply in_split in Hin as (l1 & l2 & ->).
  rewrite count_eff_app, count_eff_cons, Hf. lia.
Qed.

Lemma is_response_call_limitHandler (opts : options) :
  is_response (call_limitHandler opts) = false.
Proof. unfold call_limitHandler. destruct (limitHandler opts); reflexivity. Qed.

Lemma is_error_next_call_limitHandler (opts : options) :
  is_error_next (call_limitHandler opts) = false.
Proof. unfold call_limitHandler. destruct (limitHandler opts); reflexivity. Qed.

Lemma is_unpipe_call_limitHandler (opts : options) :
  is_unpipe (call_limitHandler opts) = false.
Proof. unfold call_limitHandler. destruct (limitHandler opts); reflexivity. Qed.

(** Rewrites a count over a list built from conses, appends, cleanups
    and a limit handler call. *)
Ltac count_eff_norm :=
  repeat first
    [ rewrite count_eff_app
    | rewrite count_eff_cleanups by (intros; reflexivity)
    | rewrite count_eff_cons ];
  rewrite ?is_response_call_limitHandler, ?is_error_next_call_limitHandler,
    ?is_unpipe_call_limitHandler;
  simpl.

Lemma in_list_insert {A : Type} (l : list A) (i : nat) (x y : A) :
  In x (<[i := y]> l) -> x = y \/ In x l.
Proof.
  revert i. induction l as [|a l IH]; intros [|i] Hin; simpl in *; try contradiction.
  - destruct Hin as [<-|Hin]; [left; reflexivity|right; right; exact Hin].
  - destruct Hin as [<-|Hin]; [right; left; reflexivity|].
    destruct (IH i Hin) as [->|Hin']; [left; reflexivity|right; right; exact Hin'].
Qed.

Section CappedNeverFacts.

Variable ext : collaborators.
Variable opts : options.

Local Abbreviation step := (Capped.step ext opts).
Local Abbreviation run := (Capped.run ext opts).

(** The continuations of the ['finish'] listener do nothing but call
    [next]; a call with an error comes from a rejected [Promise.all]. *)
Lemma capped_run_barriers_only_next (bs : list (list nat)) (st : Capped.session)
    (e : effect) :
  In e (Capped.run_barriers ext opts bs st).2 ->
  e = ENext None
  \/ exists err b, e = ENext (Some err) /\ In b bs
       /\ promise_all (Capped.promises st) b = AllRejected err.
Proof.
  revert st. induction bs as [|hs bs IH]; intros st; simpl; [intros []|].
  destruct (promise_all (Capped.promises st) hs) as [| |err] eqn:Hall.
  - specialize (IH (Capped.set_barriers (Capped.barriers st ++ [hs]) st)).
    destruct (Capped.run_barriers ext opts bs _) as [st2 effs2]. simpl in *.
    intros Hin. destruct (IH Hin) as [->|(err & b & -> & Hb & Hr)];
      [left; reflexivity|right; exists err, b; tauto].
  - unfold Capped.on_all_fulfilled.
    pose proof (capped_handler_frame ext opts None (Capped.set_waitFlush None st))
      as (_ & _ & _ & Hp & _).
    pose proof (capped_handler_effects ext opts None (Capped.set_waitFlush None st))
      as He.
    destruct (Capped.handler ext opts None _) as [st1 effs1].
    cbn [fst snd] in Hp, He. subst effs1. specialize (IH st1).
    destruct (Capped.run_barriers ext opts bs st1) as [st2 effs2].
    cbn [fst snd app] in *. rewrite Hp in IH.
    intros [<-|Hin]; [left; reflexivity|].
    destruct (IH Hin) as [->|(err & b & -> & Hb & Hr)];
      [left; reflexivity|right; exists err, b; tauto].
  - unfold Capped.on_all_rejected.
    pose proof (capped_handler_frame ext opts (Some err)
                  (Capped.set_waitFlush None st)) as (_ & _ & _ & Hp & _).
    pose proof (capped_handler_effects ext opts (Some err)
                  (Capped.set_waitFlush None st)) as He.
    destruct (Capped.handler ext opts (Some err) _) as [st1 effs1].
    cbn [fst snd] in Hp, He. subst effs1. specialize (IH st1).
    destruct (Capped.run_barriers ext opts bs st1) as [st2 effs2].
    cbn [fst snd app] in *. rewrite Hp in IH.
    intros [<-|Hin].
    + right. exists err, hs. split; [reflexivity|]. split; [left; reflexivity|exact Hall].
    + destruct (IH Hin) as [->|(err' & b & -> & Hb & Hr)];
        [left; reflexivity|right; exists err', b; tauto].
Qed.

Lemma capped_run_barriers_no_response (bs : list (list nat)) (st : Capped.session) :
  count_eff is_response (Capped.run_barriers ext opts bs st).2 = 0%nat.
Proof.
  apply count_eff_zero. intros e Hin.
  destruct (capped_run_barriers_only_next bs st e Hin) as [->|(err & b & -> & _)];
    reflexivity.
Qed.

(** No promise in the table is rejected. *)
Lemma capped_run_barriers_no_error (bs : list (list nat)) (st : Capped.session) :
  (forall err, ~ In (Rejected err) (Capped.promises st)) ->
  count_eff is_error_next (Capped.run_barriers ext opts bs st).2 = 0%nat.
Proof.
  intros Hnr. apply count_eff_zero. intros e Hin.
  destruct (capped_run_barriers_only_next bs st e Hin)
    as [->|(err & b & -> & _ & Hall)]; [reflexivity|].
  exfalso. apply (Hnr err). unfold promise_all in Hall.
  destruct (first_rejection (Capped.promises st) b) as [e'|] eqn:Hrej.
  - injection Hall as ->. exact (first_rejection_some _ _ _ Hrej).
  - destruct (forallb _ b); discriminate.
Qed.

Lemma capped_step_no_error (ev : Capped.event) (st : Capped.session) :
  capped_error_free ev = true ->
  (forall err, ~ In (Rejected err) (Capped.promises st)) ->
  (forall err, ~ In (Rejected err) (Capped.promises (step ev st).1))
  /\ count_eff is_error_next (step ev st).2 = 0%nat.
Proof.
  intros Hfree Hnr.
  destruct ev as [|f v|f n e m|k|k data|k tr fl|k err| | |err|h r];
    try discriminate; simpl;
    try (destruct (Capped.parts st !! k) as [p|]; [|split; [exact Hnr|reflexivity]]).
  - (* aborted *) split; [exact Hnr|]. simpl. count_eff_norm. reflexivity.
  - (* field *) split; [exact Hnr|reflexivity].
  - (* file *) split; [exact Hnr|reflexivity].
  - (* limit *) unfold Capped.on_limit.
    destruct (isFunc (limitHandler opts)); [|destruct (abortOnLimit opts)];
      (split; [exact Hnr|]); simpl; count_eff_norm; reflexivity.
  - (* data *) unfold Capped.on_data.
    match goal with |- context [js_gt ?a ?b] => destruct (js_gt a b) end;
      (split; [exact Hnr|]); simpl; count_eff_norm; reflexivity.
  - (* end *) simpl. split; [|reflexivity].
    intros err Hin. apply in_app_or in Hin as [Hin|[Heq|[]]].
    + exact (Hnr err Hin).
    + subst fl. discriminate.
  - (* error *) split; [exact Hnr|]. simpl. count_eff_norm. reflexivity.
  - (* filesLimit *) unfold Capped.on_filesLimit.
    destruct (numFilesLimitHandler opts); split; try exact Hnr; reflexivity.
  - (* finish *) unfold Capped.on_finish.
    destruct (Capped.waitFlush st) as [hs|].
    + pose proof (capped_run_barriers_frame ext opts [hs] st) as (_ & _ & _ & Hp).
      rewrite Hp. split; [exact Hnr|]. apply capped_run_barriers_no_error. exact Hnr.
    + pose proof (capped_handler_frame ext opts None st) as (_ & _ & _ & Hp & _).
      rewrite Hp. split; [exact Hnr|reflexivity].
  - (* settle *) destruct r as [err|]; [discriminate|].
    unfold Capped.on_settle.
    assert (Hnr' : forall err, ~ In (Rejected err) (settle h None (Capped.promises st))).
    { intros err Hin. unfold settle in Hin.
      destruct (Capped.promises st !! h) as [[| |e']|]; try exact (Hnr err Hin).
      apply in_list_insert in Hin as [Heq|Hin]; [discriminate|exact (Hnr err Hin)]. }
    match goal with |- context [Capped.run_barriers ext opts ?bs ?s] =>
      pose proof (capped_run_barriers_frame ext opts bs s) as (_ & _ & _ & Hp);
      pose proof (capped_run_barriers_no_error bs s) as Hc end.
    cbn [Capped.promises Capped.set_promises Capped.set_barriers] in Hp, Hc.
    rewrite Hp. split; [exact Hnr'|]. apply Hc. exact Hnr'.
Qed.

(** X4: [next] gets an error only from the decoder's ['error'] or from a
    rejected flush promise.  In a session without either, every call of
    [next] is a call without an error; in particular the ['error'] of a
    file part is never passed on to [next]. *)
Theorem file_errors_are_not_passed_on (evs : list Capped.event) :
  forallb capped_error_free evs = true ->
  forall err : error, ~ In (ENext (Some err)) (run evs Capped.init).2.
Proof.
  intros Hfree err Hin.
  assert (Hrun : forall evs st,
             forallb capped_error_free evs = true ->
             (forall err, ~ In (Rejected err) (Capped.promises st)) ->
             count_eff is_error_next (run evs st).2 = 0%nat).
  { clear. intros evs. induction evs as [|ev evs IH]; intros st Hfree Hnr; simpl;
      [reflexivity|].
    simpl in Hfree. apply andb_prop in Hfree as (Hf1 & Hf2).
    destruct (capped_step_no_error ev st Hf1 Hnr) as (Hnr1 & Hc1).
    destruct (step ev st) as [st1 effs1]. simpl in *.
    specialize (IH st1 Hf2 Hnr1).
    destruct (run evs st1) as [st2 effs2]. simpl in *.
    rewrite count_eff_app. lia. }
  specialize (Hrun evs Capped.init Hfree (fun _ H => H)).
  pose proof (count_eff_in is_error_next (ENext (Some err)) _ eq_refl Hin). lia.
Qed.

(** The listeners answer the client only through [closeConnection], and
    only the ['limit'] listener calls it, when no limit handler is
    configured and [abortOnLimit] is set. *)
Lemma capped_step_no_response (ev : Capped.event) (st : Capped.session) :
  abortOnLimit opts = false \/ isFunc (limitHandler opts) = true ->
  count_eff is_response (step ev st).2 = 0%nat.
Proof.
  intros Hcfg.
  destruct ev as [|f v|f n e m|k|k data|k tr fl|k err| | |err|h r]; simpl;
    try (destruct (Capped.parts st !! k) as [p|]; [|reflexivity]).
  - simpl. count_eff_norm. reflexivity.
  - reflexivity.
  - reflexivity.
  - unfold Capped.on_limit. destruct (isFunc (limitHandler opts)).
    + simpl. count_eff_norm. reflexivity.
    + destruct Hcfg as [->|Hf]; [reflexivity|discriminate].
  - unfold Capped.on_data.
    match goal with |- context [js_gt ?a ?b] => destruct (js_gt a b) end;
      simpl; count_eff_norm; reflexivity.
  - reflexivity.
  - simpl. count_eff_norm. reflexivity.
  - unfold Capped.on_filesLimit.
    destruct (numFilesLimitHandler opts); reflexivity.
  - unfold Capped.on_finish. destruct (Capped.waitFlush st) as [hs|].
    + apply capped_run_barriers_no_response.
    + reflexivity.
  - reflexivity.
  - unfold Capped.on_settle. apply capped_run_barriers_no_response.
Qed.

Lemma capped_run_no_response (evs : list Capped.event) (st : Capped.session) :
  abortOnLimit opts = false \/ isFunc (limitHandler opts) = true ->
  count_eff is_response (run evs st).2 = 0%nat.
Proof.
  intros Hcfg. revert st. induction evs as [|ev evs IH]; intros st; simpl;
    [reflexivity|].
  pose proof (capped_step_no_response ev st Hcfg) as Hc1.
  destruct (step ev st) as [st1 effs1]. specialize (IH st1).
  destruct (run evs st1) as [st2 effs2]. simpl in *.
  rewrite count_eff_app. lia.
Qed.

End CappedNeverFacts.

(** ** More on the upload timer *)

Lemma map_alter_same {A B : Type} (g : A -> B) (f : A -> A) (k : nat) (l : list A) :
  (forall x, g (f x) = g x) -> map g (alter f k l) = map g l.
Proof.
  intros Hgf. revert k. induction l as [|a l IH]; intros [|k]; simpl;
    try reflexivity.
  - rewrite Hgf. reflexivity.
  - f_equal. apply IH.
Qed.

Lemma alter_last {A : Type} (f : A -> A) (l : list A) (x : A) :
  alter f (length l) (l ++ [x]) = l ++ [f x].
Proof.
  induction l as [|a l IH]; simpl; [reflexivity|].
  f_equal. exact IH.
Qed.

Lemma map_p_timer_release (ks : list nat) (ps : list part) :
  map p_timer (release_parts ks ps) = map p_timer ps.
Proof.
  unfold release_parts. revert ps.
  induction ks as [|k ks IH]; intros ps; simpl; [reflexivity|].
  rewrite IH. apply map_alter_same. reflexivity.
Qed.

Section TimedTimerFacts.

Variable ext : collaborators.
Variable opts : options.

Local Abbreviation step := (Timed.step ext opts).
Local Abbreviation run := (Timed.run ext opts).

(** The ['file'] listener: the new part has no timer yet, so
    [setUploadTimer] clears nothing and arms a fresh timer. *)
Lemma timed_on_file_eq (field name encoding mime : string) (st : Timed.session) :
  Timed.on_file ext opts field name encoding mime st
  = (Timed.set_parts
       (Timed.parts st
        ++ [{| p_field := field; p_filename := parseFileName ext opts name;
               p_encoding := encoding; p_mime := mime; p_sink := new_sink;
               p_timer := Some (length (Timed.timers st)) |}])
       (Timed.set_timers
          (Timed.timers st
           ++ [{| Timed.t_state := Timed.Armed;
                  Timed.t_part := length (Timed.parts st) |}])
          (Timed.set_cleanups
             (Timed.cleanups st ++ [length (Timed.parts st)])
             (Timed.set_parts
                (Timed.parts st
                 ++ [{| p_field := field;
                        p_filename := parseFileName ext opts name;
                        p_encoding := encoding; p_mime := mime;
                        p_sink := new_sink; p_timer := None |}])
                st))),
     [ENewSink (length (Timed.parts st)); ESetTimeout (length (Timed.timers st))]).
Proof.
  unfold Timed.on_file, Timed.setUploadTimer, Timed.clearUploadTimer.
  cbn [Timed.parts Timed.set_parts Timed.set_cleanups Timed.timers
       Timed.set_timers].
  rewrite list_lookup_middle by reflexivity.
  cbn [p_timer Timed.parts Timed.set_parts Timed.set_cleanups Timed.timers
       Timed.set_timers app].
  rewrite alter_last. reflexivity.
Qed.

Lemma timed_timers_ok_length (st : Timed.session) :
  timed_timers_ok st -> length (Timed.timers st) = length (Timed.parts st).
Proof.
  intros (_ & Ht & _). apply (f_equal (@length nat)) in Ht.
  rewrite length_map, length_seq in Ht. exact Ht.
Qed.

Lemma timed_timers_ok_step (ev : Timed.event) (st : Timed.session) :
  timed_timers_ok st -> timed_timers_ok (step ev st).1.
Proof.
  intros Hok. pose proof (timed_timers_ok_length st Hok) as Hlen.
  destruct Hok as (Hp & Ht & Hs). unfold timed_timers_ok.
  destruct ev as [|f v|f n e m|k|k data|k tr|k err| | |err|t]; simpl;
    try (destruct (Timed.parts st !! k) as [p|]; [|repeat split; assumption]).
  - (* aborted *) simpl. rewrite map_p_timer_release, length_release_parts.
    repeat split; assumption.
  - (* field *) repeat split; assumption.
  - (* file *) rewrite timed_on_file_eq. simpl.
    rewrite !map_app, !length_app, Nat.add_1_r, seq_S, map_app, Hp, Ht, Hlen.
    simpl. repeat split.
    apply Forall_app. split; [exact Hs|]. constructor; [discriminate|constructor].
  - (* limit *) unfold Timed.on_limit.
    destruct (isFunc (limitHandler opts)); [|destruct (abortOnLimit opts)]; simpl;
      rewrite ?(map_alter_same p_timer) by reflexivity;
      rewrite ?length_alter; repeat split; assumption.
  - (* data *) simpl. rewrite (map_alter_same p_timer) by reflexivity.
    rewrite length_alter. repeat split; assumption.
  - (* end *) repeat split; assumption.
  - (* error *) simpl. rewrite (map_alter_same p_timer) by reflexivity.
    rewrite length_alter. repeat split; assumption.
  - (* filesLimit *) unfold Timed.on_filesLimit.
    destruct (numFilesLimitHandler opts); repeat split; assumption.
  - (* finish *) unfold Timed.on_finish.
    destruct (parseNested opts); repeat split; assumption.
  - (* busboy error *) repeat split; assumption.
  - (* timeout *) unfold Timed.on_timeout.
    destruct (Timed.timers st !! t) as [tm|] eqn:Htm; [|repeat split; assumption].
    destruct (Timed.t_state tm); simpl; try (repeat split; assumption).
    rewrite (map_alter_same p_timer) by reflexivity.
    rewrite (map_alter_same Timed.t_part) by reflexivity.
    rewrite length_alter. repeat split; try assumption.
    rewrite Forall_forall in Hs. apply Forall_forall. intros tm' Hin.
    apply list_elem_of_lookup in Hin as (i & Hi).
    destruct (decide (i = t)) as [->|Hne].
    + rewrite list_lookup_alter_eq, Htm in Hi. injection Hi as <-. discriminate.
    + rewrite list_lookup_alter_ne in Hi by congruence.
      apply Hs. apply list_elem_of_lookup. exists i. exact Hi.
Qed.

Lemma timed_step_no_clear (ev : Timed.event) (st : Timed.session) :
  count_eff is_clear_timeout (step ev st).2 = 0%nat.
Proof.
  destruct ev as [|f v|f n e m|k|k data|k tr|k err| | |err|t]; simpl;
    try (destruct (Timed.parts st !! k) as [p|]; [|reflexivity]).
  - count_eff_norm. reflexivity.
  - reflexivity.
  - rewrite timed_on_file_eq. reflexivity.
  - unfold Timed.on_limit.
    destruct (isFunc (limitHandler opts)); [|destruct (abortOnLimit opts)];
      simpl; count_eff_norm; try reflexivity.
    unfold call_limitHandler. destruct (limitHandler opts); reflexivity.
  - reflexivity.
  - reflexivity.
  - reflexivity.
  - unfold Timed.on_filesLimit. destruct (numFilesLimitHandler opts); reflexivity.
  - reflexivity.
  - reflexivity.
  - unfold Timed.on_timeout. destruct (Timed.timers st !! t) as [tm|]; [|reflexivity].
    destruct (Timed.t_state tm); reflexivity.
Qed.

(** X5: in every session of the revision with the upload timer there is
    exactly one timer per file part, part [k] holding timer [k] and timer
    [k] running the cleanup of part [k]; no timer is ever cleared, and
    [clearTimeout] is never called on a timer. *)
Theorem one_timer_per_part_never_cleared (evs : list Timed.event) :
  let r := run evs Timed.init in
  length (Timed.timers r.1) = length (Timed.parts r.1)
  /\ map p_timer (Timed.parts r.1) = map Some (seq 0 (length (Timed.parts r.1)))
  /\ map Timed.t_part (Timed.timers r.1) = seq 0 (length (Timed.parts r.1))
  /\ Forall (fun tm => Timed.t_state tm <> Timed.Cleared) (Timed.timers r.1)
  /\ forall t, ~ In (EClearTimeout t) r.2.
Proof.
  intros r. subst r.
  assert (Hok : timed_timers_ok (run evs Timed.init).1).
  { apply timed_run_invariant; [apply timed_timers_ok_step|].
    repeat split. constructor. }
  split; [apply timed_timers_ok_length; exact Hok|].
  destruct Hok as (Hp & Ht & Hs). repeat split; try assumption.
  intros t Hin.
  assert (Hrun : forall evs st, count_eff is_clear_timeout (run evs st).2 = 0%nat).
  { clear. intros evs. induction evs as [|ev evs IH]; intros st; simpl; [reflexivity|].
    pose proof (timed_step_no_clear ev st) as Hc.
    destruct (step ev st) as [st1 effs1]. specialize (IH st1).
    destruct (run evs st1) as [st2 effs2]. simpl in *.
    rewrite count_eff_app. lia. }
  pose proof (count_eff_in is_clear_timeout (EClearTimeout t) _ eq_refl Hin)
    as Hone.
  rewrite Hrun in Hone. lia.
Qed.

End TimedTimerFacts.

(** ** Chunks, registry and responses over whole sessions *)

Section WholeSessionFacts.

Variable ext : collaborators.
Variable opts : options.

Lemma timed_step_measure (ev : Timed.event) (st : Timed.session) :
  written (Timed.step ext opts ev st).2
  = match ev with
    | Timed.FileData k data =>
        if decide (k < length (Timed.parts st))%nat then chunk_length data else 0
    | _ => 0
    end
  /\ length (Timed.parts (Timed.step ext opts ev st).1)
     = (if timed_is_file ev then S (length (Timed.parts st))
        else length (Timed.parts st)).
Proof.
  destruct ev as [|f v|f n e m|k|k data|k tr|k err| | |err|t]; simpl.
  - rewrite written_cleanups, length_release_parts. split; reflexivity.
  - split; reflexivity.
  - rewrite timed_on_file_eq. simpl. rewrite length_app, Nat.add_1_r.
    split; reflexivity.
  - destruct (Timed.parts st !! k) as [p|]; [|split; reflexivity].
    unfold Timed.on_limit.
    destruct (isFunc (limitHandler opts)); [|destruct (abortOnLimit opts)]; simpl;
      rewrite ?length_alter; split; try reflexivity.
    apply written_call_limitHandler.
  - destruct (Timed.parts st !! k) as [p|] eqn:Hk; simpl.
    + rewrite length_alter. apply lookup_lt_Some in Hk.
      destruct (decide (k < length (Timed.parts st))%nat); [|lia].
      split; [lia|reflexivity].
    + apply lookup_ge_None in Hk.
      destruct (decide (k < length (Timed.parts st))%nat); [lia|].
      split; reflexivity.
  - destruct (Timed.parts st !! k) as [p|]; split; reflexivity.
  - destruct (Timed.parts st !! k) as [p|]; [|split; reflexivity].
    simpl. rewrite length_alter. split; reflexivity.
  - unfold Timed.on_filesLimit.
    destruct (numFilesLimitHandler opts); split; reflexivity.
  - unfold Timed.on_finish. destruct (parseNested opts); split; reflexivity.
  - split; reflexivity.
  - unfold Timed.on_timeout.
    destruct (Timed.timers st !! t) as [tm|]; [|split; reflexivity].
    destruct (Timed.t_state tm); simpl; rewrite ?length_alter; split; reflexivity.
Qed.

Lemma timed_written_run (evs : list Timed.event) (st : Timed.session) :
  written (Timed.run ext opts evs st).2
  = timed_chunks_handled (length (Timed.parts st)) evs
  /\ length (Timed.parts (Timed.run ext opts evs st).1)
     = (length (Timed.parts st) + length (List.filter timed_is_file evs))%nat.
Proof.
  revert st. induction evs as [|ev evs IH]; intros st; simpl; [split; [reflexivity|lia]|].
  destruct (timed_step_measure ev st) as (Hw & Hl).
  destruct (Timed.step ext opts ev st) as [st1 effs1]. specialize (IH st1).
  destruct (Timed.run ext opts evs st1) as [st2 effs2]. simpl in *.
  destruct IH as (IHw & IHl). rewrite written_app, Hw, IHw, IHl, Hl.
  destruct ev; simpl; split; lia.
Qed.

(** X7: the revision with the upload timer has no aggregate cap: whatever
    [limits.totalSize] is, every chunk of an existing part is passed to
    its sink, so the bytes written are the bytes of all chunks that
    reached a ['data'] listener. *)
Theorem timed_writes_every_chunk (evs : list Timed.event) :
  written (Timed.process ext opts evs).2 = timed_chunks_handled 0 evs.
Proof.
  unfold Timed.process, Timed.processMultipart.
  destruct (timed_written_run evs Timed.init) as (Hw & _).
  destruct (Timed.run ext opts evs Timed.init) as [st1 effs1]. simpl in *.
  exact Hw.
Qed.

Lemma capped_parts_run (evs : list Capped.event) (st : Capped.session) :
  length (Capped.parts (Capped.run ext opts evs st).1)
  = (length (Capped.parts st) + length (List.filter capped_is_file evs))%nat.
Proof.
  revert st. induction evs as [|ev evs IH]; intros st; simpl; [lia|].
  pose proof (capped_step_parts_length ext opts ev st) as Hl.
  destruct (Capped.step ext opts ev st) as [st1 effs1]. specialize (IH st1).
  destruct (Capped.run ext opts evs st1) as [st2 effs2]. simpl in *.
  rewrite IH, Hl. destruct ev; simpl; lia.
Qed.

(** X8: the cleanup registry grows by one entry with every ['file'] event
    and is never pruned: after any sequence of events it holds the
    cleanups of all parts ever created, in creation order, whether those
    parts have ended, failed or been cleaned up already.  This holds in
    both revisions. *)
Theorem registry_is_never_pruned :
  (forall evs : list Capped.event,
      Capped.cleanups (Capped.run ext opts evs Capped.init).1
      = seq 0 (length (List.filter capped_is_file evs)))
  /\ (forall evs : list Timed.event,
        Timed.cleanups (Timed.run ext opts evs Timed.init).1
        = seq 0 (length (List.filter timed_is_file evs))).
Proof.
  split; intros evs.
  - pose proof (capped_registry_run ext opts evs) as Hreg.
    unfold capped_registry_ok in Hreg. rewrite Hreg, capped_parts_run.
    reflexivity.
  - pose proof (timed_registry_run ext opts evs) as Hreg.
    unfold timed_registry_ok in Hreg. rewrite Hreg.
    destruct (timed_written_run evs Timed.init) as (_ & ->). reflexivity.
Qed.

Lemma timed_step_no_response (ev : Timed.event) (st : Timed.session) :
  abortOnLimit opts = false \/ isFunc (limitHandler opts) = true ->
  count_eff is_response (Timed.step ext opts ev st).2 = 0%nat
  /\ count_eff is_unpipe (Timed.step ext opts ev st).2 = 0%nat.
Proof.
  intros Hcfg.
  destruct ev as [|f v|f n e m|k|k data|k tr|k err| | |err|t]; simpl;
    try (destruct (Timed.parts st !! k) as [p|]; [|split; reflexivity]).
  - split; count_eff_norm; reflexivity.
  - split; reflexivity.
  - rewrite timed_on_file_eq. split; reflexivity.
  - unfold Timed.on_limit. destruct (isFunc (limitHandler opts)).
    + split; simpl; count_eff_norm; reflexivity.
    + destruct Hcfg as [->|Hf]; [split; reflexivity|discriminate].
  - split; reflexivity.
  - split; reflexivity.
  - split; reflexivity.
  - unfold Timed.on_filesLimit.
    destruct (numFilesLimitHandler opts); split; reflexivity.
  - split; reflexivity.
  - split; reflexivity.
  - unfold Timed.on_timeout.
    destruct (Timed.timers st !! t) as [tm|]; [|split; reflexivity].
    destruct (Timed.t_state tm); split; reflexivity.
Qed.

(** X9: the processor answers the client itself only on a per-file limit
    with [abortOnLimit] set and no limit handler configured.  When
    [abortOnLimit] is off or a limit handler is configured, no sequence
    of events makes either revision write a response head or body, and
    the revision with the upload timer never unpipes the request. *)
Theorem no_response_unless_abort_on_limit :
  abortOnLimit opts = false \/ isFunc (limitHandler opts) = true ->
  (forall (evs : list Capped.event) (st : Capped.session),
      count_eff is_response (Capped.run ext opts evs st).2 = 0%nat)
  /\ (forall (evs : list Timed.event) (st : Timed.session),
        count_eff is_response (Timed.run ext opts evs st).2 = 0%nat
        /\ count_eff is_unpipe (Timed.run ext opts evs st).2 = 0%nat).
Proof.
  intros Hcfg. split.
  - intros evs st. apply capped_run_no_response. exact Hcfg.
  - intros evs. induction evs as [|ev evs IH]; intros st; simpl;
      [split; reflexivity|].
    destruct (timed_step_no_response ev st Hcfg) as (Hr & Hu).
    destruct (Timed.step ext opts ev st) as [st1 effs1]. specialize (IH st1).
    destruct (Timed.run ext opts evs st1) as [st2 effs2]. simpl in *.
    rewrite !count_eff_app. split; lia.
Qed.

End WholeSessionFacts.

(** ** Calls without a cap *)

Section CappedCallFacts.

Variable ext : collaborators.
Variable opts : options.

(** X2: a call whose options have no [limits] object throws a TypeError at
    the fast-reject test, before anything is set up, whatever the
    Content-Length.  With a [limits] object whose [totalSize] is
    undefined, or without a numeric Content-Length, the fast reject never
    happens; and with such a [limits] object no chunk is ever held back:
    the bytes written to the sinks are the bytes of all chunks that
    reached a ['data'] listener. *)
Theorem no_cap_no_rejection :
  (forall (content_length : option Z) (evs : list Capped.event),
      Capped.call ext opts false content_length evs = (None, [EThrowTypeError]))
  /\ (forall content_length : option Z,
        limits_totalSize opts = None ->
        Capped.exports opts true content_length
        = Capped.Started Capped.init [ENewBusboy; EPipe])
  /\ Capped.exports opts true None
     = Capped.Started Capped.init [ENewBusboy; EPipe]
  /\ (forall (content_length : option Z) (evs : list Capped.event),
        limits_totalSize opts = None ->
        written (Capped.call ext opts true content_length evs).2
        = capped_chunks_handled 0 evs).
Proof.
  assert (Hstart : forall cl, limits_totalSize opts = None ->
            Capped.exports opts true cl
            = Capped.Started Capped.init [ENewBusboy; EPipe]).
  { intros cl HL. unfold Capped.exports, Capped.processMultipart. rewrite HL.
    destruct cl; reflexivity. }
  split; [reflexivity|]. split; [exact Hstart|]. split; [reflexivity|].
  intros cl evs HL. unfold Capped.call. rewrite (Hstart cl HL).
  pose proof (capped_counter_run ext opts evs) as (_ & Heq & _).
  pose proof (capped_written_run ext opts evs Capped.init) as Hw.
  pose proof (capped_counter_handled ext opts evs Capped.init) as Hh.
  destruct (Capped.run ext opts evs Capped.init) as [st1 effs1].
  cbn [fst snd] in *. change (delivered (Capped.parts Capped.init)) with 0 in Hw.
  change (Capped.totalSize Capped.init) with 0 in Hh.
  change (length (Capped.parts Capped.init)) with 0%nat in Hh.
  rewrite HL in Heq. specialize (Heq eq_refl).
  rewrite written_app. change (written [ENewBusboy; EPipe]) with 0. lia.
Qed.

End CappedCallFacts.

(** ** A part cut by the decoder *)

Lemma take_bytes_length (fileSize : nat) (body : list chunk) :
  Z.of_nat fileSize < chunks_length body ->
  chunks_length (take_bytes fileSize body) = Z.of_nat fileSize.
Proof.
  revert fileSize. induction body as [|c body IH]; intros fileSize Hover.
  - simpl in Hover. lia.
  - change (chunks_length (c :: body))
      with (chunk_length c + chunks_length body) in Hover.
    unfold chunk_length in Hover. simpl.
    destruct (Nat.leb_spec (length c) fileSize) as [Hle|Hgt].
    + change (chunks_length (c :: take_bytes (fileSize - length c) body))
        with (chunk_length c
              + chunks_length (take_bytes (fileSize - length c) body)).
      rewrite IH by lia. unfold chunk_length. lia.
    + destruct (Nat.eqb_spec fileSize 0) as [->|Hne]; [reflexivity|].
      unfold chunks_length, chunk_length. simpl. rewrite length_take. lia.
Qed.

Section CappedDecoderFacts.

Variable ext : collaborators.
Variable opts : options.

(** C6 (amended): when the content of a part exceeds [limits.fileSize],
    no limit handler is configured, [abortOnLimit] is off and the bytes
    the decoder hands on for the part keep the aggregate counter within
    [limits.totalSize], the ['limit'] listener does nothing: the
    connection stays open and the session goes on.  On the part's ['end']
    the listener adds an artifact to [req.files] under the part's field,
    with [truncated = true] and a size equal to [limits.fileSize]; the
    only actions are the creation of the sink and the writes of the
    chunks within the limit. *)
Theorem truncated_part_yields_capped_artifact
    (st : Capped.session) (field name encoding mime : string)
    (body : list chunk) (flush : pstate) (fileSize : nat) :
  limitHandler opts = NotAFunction ->
  abortOnLimit opts = false ->
  Z.of_nat fileSize < chunks_length body ->
  js_gt (Some (Capped.totalSize st + Z.of_nat fileSize))
    (limits_totalSize opts) = false ->
  let k := length (Capped.parts st) in
  let evs :=
    Capped.File field name encoding mime :: busboy_part fileSize k body flush in
  (forall st' j, Capped.step ext opts (Capped.FileLimit j) st' = (st', []))
  /\ (Capped.run ext opts evs st).2
     = ENewSink k :: map (ESinkWrite k) (take_bytes fileSize body)
  /\ exists (a : artifact) (m : gmap string (entry artifact)),
      Capped.files (Capped.run ext opts evs st).1 = Some m
      /\ (m !! field = Some (Single a)
          \/ exists l, m !! field = Some (Many (l ++ [a])))
      /\ a_truncated a = true
      /\ a_size a = Z.of_nat fileSize
      /\ a_name a = parseFileName ext opts name
      /\ a_encoding a = encoding
      /\ a_mimetype a = mime.
Proof.
  intros Hlh Hab Hover Hgt k evs. subst evs. unfold busboy_part.
  destruct (Z.ltb_spec (Z.of_nat fileSize) (chunks_length body)) as [_|Hge];
    [|lia].
  apply (capped_delivered_part_yields_artifact ext opts st field name encoding
           mime (take_bytes fileSize body) flush (Z.of_nat fileSize) Hlh Hab
           (take_bytes_length fileSize body Hover) Hgt).
Qed.

End CappedDecoderFacts.

(** ** Completion, with and without errors *)

Lemma promise_all_rejected_not_pending (ps : list pstate) (hs : list nat)
    (h : nat) (e : error) :
  In h hs -> ps !! h = Some (Rejected e) -> promise_all ps hs <> AllPending.
Proof.
  intros Hin Hh Hall. unfold promise_all in Hall.
  destruct (first_rejection ps hs) eqn:Hrej; [discriminate|].
  exact (first_rejection_none ps hs Hrej h e Hin Hh).
Qed.

Lemma count_next_pos_in (l : list effect) :
  (1 <= count_next l)%nat -> exists err, In (ENext err) l.
Proof.
  induction l as [|x l IH]; intros Hc.
  - unfold count_next in Hc. simpl in Hc. lia.
  - rewrite count_next_cons in Hc. destruct x; simpl in Hc;
      try (destruct (IH Hc) as (err' & Hin); exists err'; right; exact Hin).
    exists err. left. reflexivity.
Qed.

Section CappedCompletionFacts.

Variable ext : collaborators.
Variable opts : options.

Local Abbreviation step := (Capped.step ext opts).
Local Abbreviation run := (Capped.run ext opts).

(** Only ['end'] hands out a promise and only a settlement changes one. *)
Lemma capped_step_promises (ev : Capped.event) (st : Capped.session) :
  Capped.promises (step ev st).1
  = match ev with
    | Capped.FileEnd k _ fl =>
        match Capped.parts st !! k with
        | Some _ => Capped.promises st ++ [fl]
        | None => Capped.promises st
        end
    | Capped.Settle h r => settle h r (Capped.promises st)
    | _ => Capped.promises st
    end.
Proof.
  destruct ev as [|f v|f n e m|k|k data|k tr fl|k err| | |err|h r]; simpl;
    try (destruct (Capped.parts st !! k) as [p|]; [|reflexivity]);
    try reflexivity.
  - unfold Capped.on_limit.
    destruct (isFunc (limitHandler opts)); [|destruct (abortOnLimit opts)];
      reflexivity.
  - unfold Capped.on_data.
    match goal with |- context [js_gt ?a ?b] => destruct (js_gt a b) end;
      reflexivity.
  - unfold Capped.on_filesLimit. destruct (numFilesLimitHandler opts); reflexivity.
  - unfold Capped.on_finish. destruct (Capped.waitFlush st) as [hs|].
    + pose proof (capped_run_barriers_frame ext opts [hs] st) as (_ & _ & _ & Hp).
      exact Hp.
    + pose proof (capped_handler_frame ext opts None st) as (_ & _ & _ & Hp & _).
      exact Hp.
  - unfold Capped.on_settle.
    match goal with |- context [Capped.run_barriers ext opts ?bs ?s] =>
      pose proof (capped_run_barriers_frame ext opts bs s) as (_ & _ & _ & Hp) end.
    exact Hp.
Qed.

(** One promise per ['end'] that reached its listener. *)
Lemma capped_promises_length_run (evs : list Capped.event) (st : Capped.session) :
  length (Capped.promises (run evs st).1)
  = (length (Capped.promises st)
     + capped_ends_handled (length (Capped.parts st)) evs)%nat.
Proof.
  revert st. induction evs as [|ev evs IH]; intros st; simpl; [lia|].
  pose proof (capped_step_promises ev st) as Hp.
  pose proof (capped_step_parts_length ext opts ev st) as Hl.
  destruct (step ev st) as [st1 effs1]. specialize (IH st1).
  destruct (run evs st1) as [st2 effs2]. cbn [fst snd] in *.
  rewrite IH, Hp, Hl.
  destruct ev as [|f v|f n e m|k|k data|k tr fl|k err| | |err|h r]; try lia.
  - destruct (Capped.parts st !! k) as [p|] eqn:Hk.
    + apply lookup_lt_Some in Hk. rewrite length_app. simpl.
      destruct (decide (k < length (Capped.parts st))%nat); lia.
    + apply lookup_ge_None in Hk.
      destruct (decide (k < length (Capped.parts st))%nat); lia.
  - rewrite length_settle. lia.
Qed.

(** A settled promise keeps its state. *)
Lemma capped_settled_step (h : nat) (p : pstate) (ev : Capped.event)
    (st : Capped.session) :
  p <> Pending ->
  Capped.promises st !! h = Some p ->
  Capped.promises (step ev st).1 !! h = Some p.
Proof.
  intros Hp Hh. rewrite capped_step_promises.
  destruct ev as [|f v|f n e m|k|k data|k tr fl|k err| | |err|h' r];
    try exact Hh.
  - destruct (Capped.parts st !! k); [|exact Hh].
    apply lookup_app_l_Some. exact Hh.
  - unfold settle. destruct (Capped.promises st !! h') as [[| |e']|] eqn:Hh';
      try exact Hh.
    destruct (decide (h' = h)) as [->|Hne]; [congruence|].
    rewrite list_lookup_insert_ne by exact Hne. exact Hh.
Qed.

Lemma capped_settled_run (h : nat) (p : pstate) (evs : list Capped.event)
    (st : Capped.session) :
  p <> Pending ->
  Capped.promises st !! h = Some p ->
  Capped.promises (run evs st).1 !! h = Some p.
Proof.
  intros Hp.
  apply (capped_run_invariant ext opts
           (fun s => Capped.promises s !! h = Some p)).
  intros ev st'. apply capped_settled_step. exact Hp.
Qed.

(** An action of a run is an action of one of its events. *)
Lemma capped_in_run_split (e : effect) (evs : list Capped.event)
    (st : Capped.session) :
  In e (run evs st).2 ->
  exists done ev rest,
    evs = done ++ ev :: rest /\ In e (step ev (run done st).1).2.
Proof.
  revert st. induction evs as [|ev evs IH]; intros st Hin; [contradiction|].
  destruct (capped_run_cons ext opts ev evs st) as (_ & He). rewrite He in Hin.
  apply in_app_or in Hin as [Hin|Hin].
  - exists [], ev, evs. split; [reflexivity|exact Hin].
  - destruct (IH _ Hin) as (done & ev' & rest & -> & Hin').
    exists (ev :: done), ev', rest. split; [reflexivity|].
    destruct (capped_run_cons ext opts ev done st) as (-> & _). exact Hin'.
Qed.

(** C1 (amended): in a session whose events hold one ['finish'] and no
    ['error'] of a file part or of the decoder, the ['end'] listener has
    handed out one promise per completed part before ['finish'], all of
    them collected in [req[waitFlushProperty]]; the processor calls [next]
    at most once; it calls [next] without an error only when every one of
    these promises is fulfilled; and when one of them is rejected, it has
    called [next] exactly once, with an error.  Outside such sessions
    [next] is not limited to one call: an ['error'] of a file part runs
    every cleanup and calls [next] without an error, and an ['error'] of
    the decoder calls [next] with that error, neither waiting for a
    promise, so that the two in a row make two calls. *)
Theorem finish_completes_once_after_flush (pre post : list Capped.event) :
  forallb capped_quiet pre = true ->
  forallb capped_quiet post = true ->
  let evs := pre ++ Capped.Finish :: post in
  let s1 := (run pre Capped.init).1 in
  let r := run evs Capped.init in
  let n0 := capped_ends_handled 0 pre in
  length (Capped.promises s1) = n0
  /\ default [] (Capped.waitFlush s1) = seq 0 n0
  /\ (count_next r.2 <= 1)%nat
  /\ (forall (done : list Capped.event) (ev : Capped.event)
         (rest : list Capped.event),
        evs = done ++ ev :: rest ->
        let s := (run done Capped.init).1 in
        In (ENext None) (step ev s).2 ->
        forall h, (h < n0)%nat ->
          Capped.promises (step ev s).1 !! h = Some Fulfilled)
  /\ (forall (h : nat) (e : error),
        (h < n0)%nat ->
        Capped.promises r.1 !! h = Some (Rejected e) ->
        count_next r.2 = 1%nat
        /\ ~ In (ENext None) r.2
        /\ exists e', In (ENext (Some e')) r.2)
  /\ (forall (st : Capped.session) (k : nat) (p : part) (err : error),
        Capped.parts st !! k = Some p ->
        (step (Capped.FileError k err) st).2
        = map ECleanup (Capped.cleanups st) ++ [ENext None])
  /\ (forall (st : Capped.session) (err : error),
        step (Capped.BusboyError err) st = (st, [ENext (Some err)]))
  /\ (forall (st : Capped.session) (k : nat) (p : part) (err err' : error),
        Capped.parts st !! k = Some p ->
        count_next (run [Capped.FileError k err; Capped.BusboyError err'] st).2
        = 2%nat).
Proof.
  intros Hpre Hpost evs s1 r n0. subst evs s1 r n0.
  pose proof (capped_promises_length_run pre Capped.init) as Hlen.
  cbn [Capped.promises Capped.parts Capped.init length Nat.add] in Hlen.
  destruct (capped_flush_registry_run ext opts pre Capped.init Hpre
              (capped_flush_registry_init)) as (Hreg & Hc0).
  destruct (capped_finish_once ext opts pre post Hpre Hpost) as (Hcount & Hsucc).
  rewrite Hlen in Hsucc.
  split; [exact Hlen|]. split; [rewrite <- Hlen; exact (proj2 Hreg)|].
  split; [exact Hcount|]. split; [exact Hsucc|].
  split; [|split; [|split]].
  - intros h e Hh Hrej.
    destruct (capped_finish_step ext opts _ Hreg) as (Hcov & Hc1 & _).
    pose proof (capped_finish_pending ext opts _ Hreg) as Hpend.
    destruct (capped_barriers_cover_run ext opts _ post _ Hpost Hcov) as (_ & Hc2).
    pose proof (capped_pending_run ext opts _ post _ Hpost Hpend) as (_ & Hpend').
    destruct (capped_run_cons ext opts Capped.Finish post
                (run pre Capped.init).1) as (Hs & He).
    rewrite capped_run_app_state, Hs in Hrej.
    assert (Hnil : Capped.barriers
                     (run post (step Capped.Finish (run pre Capped.init).1).1).1
                   = []).
    { destruct (Capped.barriers
                  (run post (step Capped.Finish (run pre Capped.init).1).1).1)
        as [|b bs]; [reflexivity|].
      exfalso. inversion Hpend' as [|b' bs' (-> & Hall) _]; subst.
      apply (promise_all_rejected_not_pending _ _ h e) in Hall; [exact Hall| |exact Hrej].
      apply in_seq. lia. }
    assert (Hone : count_next
                     (run (pre ++ Capped.Finish :: post) Capped.init).2 = 1%nat).
    { rewrite capped_run_app_effects, He, !count_next_app, Hc0.
      rewrite Hnil in Hc2. cbn [length] in Hc2. lia. }
    assert (Hnone : ~ In (ENext None)
                      (run (pre ++ Capped.Finish :: post) Capped.init).2).
    { intros Hin. apply capped_in_run_split in Hin as (done & ev & rest & Heq & Hin).
      pose proof (Hsucc done ev rest Heq Hin h Hh) as Hful.
      apply (capped_settled_run h Fulfilled rest) in Hful; [|discriminate].
      assert (Hst : (run (pre ++ Capped.Finish :: post) Capped.init).1
                    = (run rest (step ev (run done Capped.init).1).1).1).
      { rewrite Heq, capped_run_app_state.
        destruct (capped_run_cons ext opts ev rest (run done Capped.init).1)
          as (-> & _). reflexivity. }
      rewrite capped_run_app_state, Hs in Hst. rewrite Hst in Hrej. congruence. }
    split; [exact Hone|]. split; [exact Hnone|].
    destruct (count_next_pos_in _ ltac:(rewrite Hone; lia)) as ([e'|] & Hin).
    + exists e'. exact Hin.
    + contradiction.
  - intros st k p err Hk. simpl. rewrite Hk. reflexivity.
  - intros st err. reflexivity.
  - intros st k p err err' Hk. simpl. rewrite Hk. simpl.
    rewrite !count_next_app, count_next_cleanups. reflexivity.
Qed.

End CappedCompletionFacts.

(** ** The further theorems on sample sessions *)

Lemma overflow_is_final_witness :
  let opts := sample_options (Some 5) (Function 7) false in
  let st := (Capped.run sample_ext opts
               [Capped.File "doc" "a.txt" "7bit" "text/plain";
                Capped.FileData 0 (zeros 6)] Capped.init).1 in
  js_gt (Some (Capped.totalSize st)) (limits_totalSize opts) = true
  /\ written (Capped.run sample_ext opts
                [Capped.FileData 0 (zeros 1);
                 Capped.File "pic" "b.png" "7bit" "image/png";
                 Capped.FileData 1 (zeros 1)] st).2 = 0.
Proof.
  split; [reflexivity|].
  apply (overflow_is_final sample_ext (sample_options (Some 5) (Function 7) false)
           (Capped.run sample_ext (sample_options (Some 5) (Function 7) false)
              [Capped.File "doc" "a.txt" "7bit" "text/plain";
               Capped.FileData 0 (zeros 6)] Capped.init).1
           [Capped.FileData 0 (zeros 1);
            Capped.File "pic" "b.png" "7bit" "image/png";
            Capped.FileData 1 (zeros 1)] eq_refl).
Defined.

Lemma settled_flush_completes_once_witness :
  let opts := sample_options (Some 5) (Function 7) false in
  let r := Capped.run sample_ext opts
             (sample_upload ++ Capped.Finish :: [Capped.Settle 0 None])
             Capped.init in
  forallb capped_quiet sample_upload = true
  /\ forallb capped_quiet [Capped.Settle 0 None] = true
  /\ Capped.promises r.1 !! 0%nat = Some Fulfilled
  /\ count_next r.2 = 1%nat.
Proof.
  split; [reflexivity|]. split; [reflexivity|]. split; [reflexivity|].
  apply (settled_flush_completes_once sample_ext
           (sample_options (Some 5) (Function 7) false)
           sample_upload [Capped.Settle 0 None] eq_refl eq_refl).
  intros h Hh. change (h < 1)%nat in Hh.
  destruct h as [|h]; [discriminate|lia].
Defined.

Lemma file_errors_are_not_passed_on_witness :
  let opts := sample_options (Some 5) (Function 7) false in
  let evs := [Capped.File "doc" "a.txt" "7bit" "text/plain";
              Capped.FileError 0 "boom"; Capped.Finish] in
  forallb capped_error_free evs = true
  /\ ~ In (ENext (Some "boom")) (Capped.run sample_ext opts evs Capped.init).2.
Proof.
  split; [reflexivity|].
  apply (file_errors_are_not_passed_on sample_ext
           (sample_options (Some 5) (Function 7) false)
           [Capped.File "doc" "a.txt" "7bit" "text/plain";
            Capped.FileError 0 "boom"; Capped.Finish] eq_refl).
Defined.

Lemma no_response_unless_abort_on_limit_witness :
  let opts := sample_options None NotAFunction false in
  (abortOnLimit opts = false \/ isFunc (limitHandler opts) = true)
  /\ count_eff is_response
       (Capped.run sample_ext opts
          [Capped.File "doc" "a.txt" "7bit" "text/plain"; Capped.FileLimit 0]
          Capped.init).2 = 0%nat.
Proof.
  split; [left; reflexivity|].
  apply (proj1 (no_response_unless_abort_on_limit sample_ext
                  (sample_options None NotAFunction false)
                  (or_introl eq_refl))).
Defined.

Lemma no_cap_no_rejection_witness :
  let opts := sample_options None (Function 7) false in
  limits_totalSize opts = None
  /\ Capped.call sample_ext opts false (Some 3) sample_upload
     = (None, [EThrowTypeError])
  /\ Capped.exports opts true (Some 1000000)
     = Capped.Started Capped.init [ENewBusboy; EPipe]
  /\ written (Capped.call sample_ext opts true (Some 3) sample_upload).2
     = capped_chunks_handled 0 sample_upload.
Proof.
  split; [reflexivity|].
  destruct (no_cap_no_rejection sample_ext (sample_options None (Function 7) false))
    as (Hthrow & Hstart & _ & Hrun).
  split; [apply Hthrow|]. split; [apply Hstart; reflexivity|].
  apply Hrun. reflexivity.
Defined.

(** C6, as stated, fails: a part cut at [limits.fileSize] = 4 whose four
    bytes push the aggregate counter over [limits.totalSize] = 5 takes
    the aggregate-limit branch: the request is unpiped, the cleanups run,
    the call of the missing limit handler throws, and the artifact added
    at ['end'] has size 0, not 4. *)
Lemma aggregate_cap_cuts_truncated_part :
  let opts := sample_options (Some 5) NotAFunction false in
  let evs :=
    (Capped.File "doc" "a.txt" "7bit" "text/plain"
     :: busboy_part 4 0 [zeros 3] Fulfilled)
    ++ Capped.File "pic" "b.png" "7bit" "image/png"
    :: busboy_part 4 1 [zeros 6] Pending in
  let r := Capped.run sample_ext opts evs Capped.init in
  r.2 = [ENewSink 0; ESinkWrite 0 (zeros 3); ENewSink 1;
         EUnpipe; ECleanup 0; ECleanup 1; EThrowTypeError]
  /\ (Capped.files r.1 ≫= (fun m => m !! "pic"))
     = Some (Single {| a_buffer := []; a_name := "b.png"; a_tempFilePath := "";
                       a_size := 0; a_hash := ""; a_encoding := "7bit";
                       a_truncated := true; a_mimetype := "image/png" |})
  /\ ~ (exists a, (Capped.files r.1 ≫= (fun m => m !! "pic")) = Some (Single a)
                  /\ a_size a = 4).
Proof.
  split; [reflexivity|]. split; [reflexivity|].
  intros (a & Ha & Hsize). vm_compute in Ha. injection Ha as <-.
  discriminate Hsize.
Qed.

Lemma truncated_part_yields_capped_artifact_witness :
  let opts := sample_options (Some 5) NotAFunction false in
  let evs :=
    Capped.File "doc" "a.txt" "7bit" "text/plain"
    :: busboy_part 4 0 [zeros 3; zeros 3] Pending in
  limitHandler opts = NotAFunction
  /\ abortOnLimit opts = false
  /\ Z.of_nat 4 < chunks_length [zeros 3; zeros 3]
  /\ js_gt (Some (Capped.totalSize Capped.init + Z.of_nat 4))
       (limits_totalSize opts) = false
  /\ (Capped.run sample_ext opts evs Capped.init).2
     = [ENewSink 0; ESinkWrite 0 (zeros 3); ESinkWrite 0 (zeros 1)].
Proof.
  split; [reflexivity|]. split; [reflexivity|]. split; [reflexivity|].
  split; [reflexivity|].
  apply (truncated_part_yields_capped_artifact sample_ext
           (sample_options (Some 5) NotAFunction false) Capped.init
           "doc" "a.txt" "7bit" "text/plain" [zeros 3; zeros 3] Pending 4
           eq_refl eq_refl eq_refl eq_refl).
Defined.

Lemma finish_completes_once_after_flush_witness :
  let opts := sample_options (Some 5) (Function 0) false in
  let post := [Capped.Settle 0 (Some "disk full")] in
  let r := Capped.run sample_ext opts
             (sample_upload ++ Capped.Finish :: post) Capped.init in
  forallb capped_quiet sample_upload = true
  /\ forallb capped_quiet post = true
  /\ capped_ends_handled 0 sample_upload = 1%nat
  /\ Capped.promises r.1 !! 0%nat = Some (Rejected "disk full")
  /\ count_next r.2 = 1%nat
  /\ ~ In (ENext None) r.2.
Proof.
  split; [reflexivity|]. split; [reflexivity|]. split; [reflexivity|].
  split; [reflexivity|].
  destruct (finish_completes_once_after_flush sample_ext
              (sample_options (Some 5) (Function 0) false)
              sample_upload [Capped.Settle 0 (Some "disk full")]
              eq_refl eq_refl)
    as (_ & _ & _ & _ & Hrej & _).
  destruct (Hrej 0%nat "disk full" (le_n 1) eq_refl) as (Hone & Hnone & _).
  split; [exact Hone|exact Hnone].
Defined.
